(** * Trigger-Simulator: the event engine of [simulator.js]

    A shallow embedding of the simulation core of [src/simulator.js]
    (channel parsing, [Trigger], the event queue and the [Simulator] run
    loop, the registry and the layout loader) together with the properties
    the specification states about them.

    Modelling conventions.
    - A JavaScript string is a [string]: each [ascii] is one code unit in
      the range 0..255.  The white space that [String.prototype.trim]
      removes is, in that range, TAB, LF, VT, FF, CR, SPACE and NBSP.
    - Numbers (times and delays) are integers, [Z]; fractional values and
      NaN are outside the model.
    - Values whose type the code tests at run time ([typeof], truthiness,
      [Array.isArray]) are of type [value].
    - The DOM (elements, classes, [flash], [updateUI]) is presentation and
      is not modelled; the log pane and [alert] are kept as output lists. *)

From Stdlib Require Import List String Ascii ZArith Bool Lia Arith.
From Stdlib Require Import Sorting.Sorted Sorting.Permutation.
Import ListNotations.

Set Warnings "-register-all".

Local Open Scope string_scope.
Local Open Scope list_scope.
Local Open Scope Z_scope.

(** ** JavaScript values *)

Inductive value : Type :=
| VUndefined
| VNull
| VBool (b : bool)
| VNum (n : Z)
| VStr (s : string)
| VArr (items : list value)
| VObj (fields : list (string * value)).

(** ToBoolean. *)
Definition truthy (v : value) : bool :=
  match v with
  | VUndefined | VNull => false
  | VBool b => b
  | VNum n => negb (n =? 0)
  | VStr s => negb (s =? "")%string
  | VArr _ | VObj _ => true
  end.

(** [typeof v === 'string'] *)
Definition is_string (v : value) : bool :=
  match v with VStr _ => true | _ => false end.

(** [Array.isArray(v)] *)
Definition isArray (v : value) : bool :=
  match v with VArr _ => true | _ => false end.

(** Truthiness of a string, and of a field that holds a string or
    null/undefined. *)
Definition nonempty (s : string) : bool := negb (s =? "")%string.

Definition truthy_opt (o : option string) : bool :=
  match o with Some s => nonempty s | None => false end.

(** ** String primitives *)

Module Str.

Definition is_white_space (c : ascii) : bool :=
  let n := nat_of_ascii c in
  ((9 <=? n) && (n <=? 13) || (n =? 32) || (n =? 160))%nat.

Definition is_comma (c : ascii) : bool := (c =? ",")%char.

(** [s.trimStart()] *)
Fixpoint trimStart (s : string) : string :=
  match s with
  | EmptyString => EmptyString
  | String c s' => if is_white_space c then trimStart s' else s
  end.

(** [s.trimEnd()] *)
Fixpoint trimEnd (s : string) : string :=
  match s with
  | EmptyString => EmptyString
  | String c s' =>
      match trimEnd s' with
      | EmptyString => if is_white_space c then EmptyString else String c EmptyString
      | r => String c r
      end
  end.

(** [s.trim()] *)
Definition trim (s : string) : string := trimEnd (trimStart s).

(** [s.split(',')]: never empty, [''.split(',')] is [['']]. *)
Fixpoint split_comma (s : string) : list string :=
  match s with
  | EmptyString => [EmptyString]
  | String c s' =>
      if is_comma c then EmptyString :: split_comma s'
      else match split_comma s' with
           | p :: ps => String c p :: ps
           | [] => [String c EmptyString]
           end
  end.

(** [l.join(sep)] *)
Fixpoint join (sep : string) (l : list string) : string :=
  match l with
  | [] => EmptyString
  | [x] => x
  | x :: l' => (x ++ sep ++ join sep l')%string
  end.

(** [l.includes(x)] on a list of strings. *)
Definition includes (l : list string) (x : string) : bool :=
  existsb (String.eqb x) l.

(** Vocabulary for stating what [split] and [trim] return. *)
Fixpoint all_ws (s : string) : bool :=
  match s with
  | EmptyString => true
  | String c s' => is_white_space c && all_ws s'
  end.

Fixpoint no_comma (s : string) : bool :=
  match s with
  | EmptyString => true
  | String c s' => negb (is_comma c) && no_comma s'
  end.

Definition starts_ws (s : string) : bool :=
  match s with
  | EmptyString => false
  | String c _ => is_white_space c
  end.

Fixpoint ends_ws (s : string) : bool :=
  match s with
  | EmptyString => false
  | String c EmptyString => is_white_space c
  | String _ s' => ends_ws s'
  end.

(** A channel name: not empty, no comma, no white space at either end. *)
Definition is_name (s : string) : bool :=
  nonempty s && no_comma s && negb (starts_ws s) && negb (ends_ws s).

(** [t] is [s] without its leading and trailing white space. *)
Definition is_trim_of (s t : string) : Prop :=
  exists a b, s = (a ++ t ++ b)%string
              /\ all_ws a = true /\ all_ws b = true
              /\ starts_ws t = false /\ ends_ws t = false.

End Str.

(** ** Channel parsing (simulator.js, lines 2-5) *)

Definition parseChannels (channelString : value) : list string :=
  if negb (truthy channelString) || negb (is_string channelString) then []
  else match channelString with
       | VStr s => filter nonempty (map Str.trim (Str.split_comma s))
       | _ => []
       end.


(** ** Events *)

Module Event.

(** [{ time, channel, sourceId }] *)
Record t : Type := mk {
  time : Z;
  channel : string;
  sourceId : option string
}.

End Event.

(** ** The event queue ([this.eventQueue], an array) *)

Module Queue.

Definition t : Type := list Event.t.

(** [q.push(e)] *)
Definition push (e : Event.t) (q : t) : t := q ++ [e].

(** [q.sort((a, b) => a.time - b.time)].  [Array.prototype.sort] is stable
    and the comparator is a total preorder on integer times, so the result
    is the stable arrangement by time, which insertion from the right
    computes. *)
Fixpoint insert (e : Event.t) (q : t) : t :=
  match q with
  | [] => [e]
  | y :: q' =>
      if Event.time e <=? Event.time y then e :: q else y :: insert e q'
  end.

Fixpoint sort (q : t) : t :=
  match q with
  | [] => []
  | e :: q' => insert e (sort q')
  end.


(** The two statements with which [run] takes the next event:
    [q.sort(...)] followed by [q.shift()]. *)
Definition pop (q : t) : option (Event.t * t) :=
  match sort q with
  | [] => None
  | e :: rest => Some (e, rest)
  end.

End Queue.

(** The queue seen from outside: a sequence of pushes and pops, and what
    each pop hands out. *)
Module QueueRun.




(** The specification's [popMin], on the pending events listed in the
    order they were pushed: [m] is pending, every event pushed before it
    is strictly later in time, every event pushed after it is not
    earlier, and [rest] is what remains, order kept. *)
Definition fifo_min (pending : list Event.t) (m : Event.t)
    (rest : list Event.t) : Prop :=
  exists before after,
    pending = before ++ m :: after
    /\ rest = before ++ after
    /\ Forall (fun x => Event.time m < Event.time x) before
    /\ Forall (fun x => Event.time m <= Event.time x) after.


(** Events in non-decreasing order of time. *)
Definition time_sorted (l : list Event.t) : Prop :=
  StronglySorted (fun a b => Event.time a <= Event.time b) l.


End QueueRun.

(** ** The log pane *)

(** One line of the log pane.  The source formats each line as text; the
    model keeps which line it is and the data it interpolates. *)
Inductive log_entry : Type :=
| LogActivated (currentTime : Z) (id : option string) (channel : string)
| LogDeactivated (currentTime : Z) (id : option string) (channel : string)
| LogTriggered (currentTime : Z) (id : option string) (channel : string)
| LogScheduling (channel : string) (fireTime : Z)
| LogCreated (id : string)
| LogDeleted (id : string)
| LogCannotPulse
| LogInjecting (channel : string) (time : Z)
| LogCannotManually
| LogCannotManuallyInactive (id : string)
| LogManually (id : string) (time : Z)
| LogSimulationEnd
| LogProcessing (time : Z) (channel : string)
| LogNotHandled (channel : string)
| LogUpdated (property : string) (id : option string)
| LogToggled (id : option string) (state : bool)
| LogReset
| LogSaved
| LogLoaded.

(** ** The trigger (simulator.js, class Trigger) *)

(** The object handed to [new Trigger(config)] and to [addTrigger]: a field
    that is absent (or null) is [None]. *)
Record Config : Type := mkConfig {
  c_id : option string;
  c_delay : option Z;
  c_activateOn : value;
  c_deactivateOn : value;
  c_triggerOn : value;
  c_whenTriggered : option string;
  c_initialState : option bool;
  c_x : Z;
  c_y : Z
}.

Module Trigger.

Record t : Type := mk {
  id : option string;
  delay : Z;
  activateOn : list string;
  deactivateOn : list string;
  triggerOn : list string;
  whenTriggered : option string;
  initialState : bool;
  state : bool;
  x : Z;
  y : Z
}.

Definition set_state (this : t) (b : bool) : t :=
  mk (id this) (delay this) (activateOn this) (deactivateOn this)
     (triggerOn this) (whenTriggered this) (initialState this) b
     (x this) (y this).

Definition set_initialState (this : t) (b : bool) : t :=
  mk (id this) (delay this) (activateOn this) (deactivateOn this)
     (triggerOn this) (whenTriggered this) b (state this)
     (x this) (y this).

Definition set_delay (this : t) (n : Z) : t :=
  mk (id this) n (activateOn this) (deactivateOn this)
     (triggerOn this) (whenTriggered this) (initialState this) (state this)
     (x this) (y this).

Definition set_activateOn (this : t) (l : list string) : t :=
  mk (id this) (delay this) l (deactivateOn this)
     (triggerOn this) (whenTriggered this) (initialState this) (state this)
     (x this) (y this).

Definition set_deactivateOn (this : t) (l : list string) : t :=
  mk (id this) (delay this) (activateOn this) l
     (triggerOn this) (whenTriggered this) (initialState this) (state this)
     (x this) (y this).

Definition set_triggerOn (this : t) (l : list string) : t :=
  mk (id this) (delay this) (activateOn this) (deactivateOn this)
     l (whenTriggered this) (initialState this) (state this)
     (x this) (y this).

Definition set_whenTriggered (this : t) (w : option string) : t :=
  mk (id this) (delay this) (activateOn this) (deactivateOn this)
     (triggerOn this) w (initialState this) (state this)
     (x this) (y this).

(** [constructor(config)], lines 8-24. *)
Definition new (config : Config) : t :=
  let id := c_id config in
  (* config.delay || 0 *)
  let delay := match c_delay config with
               | Some n => if n =? 0 then 0 else n
               | None => 0
               end in
  let activateOn := parseChannels (c_activateOn config) in
  let deactivateOn := parseChannels (c_deactivateOn config) in
  let triggerOn := parseChannels (c_triggerOn config) in
  (* config.whenTriggered || null *)
  let whenTriggered := if truthy_opt (c_whenTriggered config)
                       then c_whenTriggered config else None in
  (* config.initialState || false *)
  let initialState := match c_initialState config with
                      | Some b => b || false
                      | None => false
                      end in
  let state := initialState in
  mk id delay activateOn deactivateOn triggerOn whenTriggered
     initialState state (c_x config) (c_y config).

(** What one call of [handlePulse] leaves behind: the returned flag, the
    trigger, the queue it was handed and the log pane. *)
Record outcome : Type := mkOutcome {
  handled : bool;
  this' : t;
  eventQueue' : Queue.t;
  log' : list log_entry
}.

(** [handlePulse(channel, eventQueue, currentTime)], lines 43-67.  The
    three [if]s run one after the other on the same object. *)
Definition handlePulse (this : t) (channel : string)
    (eventQueue : Queue.t) (currentTime : Z)
    (log : list log_entry) : outcome :=
  let handled := false in
  let '(this, log, handled) :=
    if nonempty channel && Str.includes (activateOn this) channel
    then (set_state this true,
          LogActivated currentTime (id this) channel :: log, true)
    else (this, log, handled) in
  let '(this, log, handled) :=
    if nonempty channel && Str.includes (deactivateOn this) channel
    then (set_state this false,
          LogDeactivated currentTime (id this) channel :: log, true)
    else (this, log, handled) in
  if nonempty channel && Str.includes (triggerOn this) channel && state this
  then
    let log := LogTriggered currentTime (id this) channel :: log in
    match whenTriggered this with
    | Some w =>
        if nonempty w then
          let fireTime := currentTime + delay this in
          mkOutcome true this
            (Queue.push (Event.mk fireTime w (id this)) eventQueue)
            (LogScheduling w fireTime :: log)
        else mkOutcome true this eventQueue log
    | None => mkOutcome true this eventQueue log
    end
  else mkOutcome handled this eventQueue log.

(** The click handler of the "Toggle State" button, lines 91-98, once the
    [isSimulating] guard has passed. *)
Definition toggle (this : t) : t :=
  let this := set_state this (negb (state this)) in
  set_initialState this (state this).

(** [reset()], lines 105-108. *)
Definition reset (this : t) : t := set_state this (initialState this).

(** [serialize()], lines 117-129. *)
Definition serialize (this : t) : Config :=
  mkConfig (id this) (Some (delay this))
    (VStr (Str.join ", " (activateOn this)))
    (VStr (Str.join ", " (deactivateOn this)))
    (VStr (Str.join ", " (triggerOn this)))
    (whenTriggered this) (Some (initialState this))
    (x this) (y this).

End Trigger.





(** Whether any of the three lists of a trigger names [channel]. *)
Definition mentions (channel : string) (this : Trigger.t) : bool :=
  Str.includes (Trigger.activateOn this) channel
  || Str.includes (Trigger.deactivateOn this) channel
  || Str.includes (Trigger.triggerOn this) channel.


(** ** A plain object used as a map ([this.triggers = {}]) *)

Module Obj.

(** The names every object literal inherits from [Object.prototype]; each
    of them reads as a truthy value on [{}]. *)
Definition prototype_names : list string :=
  [ "constructor"; "__defineGetter__"; "__defineSetter__"; "hasOwnProperty";
    "__lookupGetter__"; "__lookupSetter__"; "isPrototypeOf";
    "propertyIsEnumerable"; "toString"; "valueOf"; "__proto__";
    "toLocaleString" ].

Definition inherited (k : string) : bool := Str.includes prototype_names k.

Definition digit_of (c : ascii) : option N :=
  let n := N_of_ascii c in
  if ((48 <=? n) && (n <=? 57))%N then Some (n - 48)%N else None.

Fixpoint digits (s : string) (acc : N) : option N :=
  match s with
  | EmptyString => Some acc
  | String c s' =>
      match digit_of c with
      | Some d => digits s' (10 * acc + d)%N
      | None => None
      end
  end.

(** A key is an array index when it is the canonical decimal form of an
    integer below 2^32 - 1. *)
Definition array_index (k : string) : option N :=
  match k with
  | EmptyString => None
  | String c rest =>
      if (c =? "0")%char && nonempty rest then None
      else match digits k 0%N with
           | Some n => if (n <? 4294967295)%N then Some n else None
           | None => None
           end
  end.

(** Property enumeration order: array indices in ascending order first,
    then the other keys in the order they were created. *)
Definition goes_before (k k' : string) : bool :=
  match array_index k, array_index k' with
  | Some n, Some n' => (n <? n')%N
  | Some _, None => true
  | None, _ => false
  end.

Section Properties.
Context {A : Type}.

(** Own properties, in enumeration order. *)
Definition t : Type := list (string * A).

Definition empty : t := [].

Fixpoint own (k : string) (o : t) : option A :=
  match o with
  | [] => None
  | (k', v) :: o' => if (k =? k')%string then Some v else own k o'
  end.

Definition has_own (k : string) (o : t) : bool :=
  match own k o with Some _ => true | None => false end.

(** Whether [o[k]] is truthy, for an object whose own values are objects. *)
Definition get_truthy (k : string) (o : t) : bool :=
  has_own k o || inherited k.

Fixpoint replace (k : string) (v : A) (o : t) : t :=
  match o with
  | [] => []
  | (k', v') :: o' =>
      if (k =? k')%string then (k', v) :: o' else (k', v') :: replace k v o'
  end.

Fixpoint insert_new (k : string) (v : A) (o : t) : t :=
  match o with
  | [] => [(k, v)]
  | (k', v') :: o' =>
      if goes_before k k' then (k, v) :: o else (k', v') :: insert_new k v o'
  end.

(** [o[k] = v] *)
Definition set (k : string) (v : A) (o : t) : t :=
  if has_own k o then replace k v o else insert_new k v o.

(** [delete o[k]] *)
Fixpoint delete (k : string) (o : t) : t :=
  match o with
  | [] => []
  | (k', v') :: o' =>
      if (k =? k')%string then o' else (k', v') :: delete k o'
  end.

(** [Object.values(o)] *)
Definition values (o : t) : list A := map snd o.

Definition keys (o : t) : list string := map fst o.

(** The keys stand in enumeration order: none of them goes before a key
    listed ahead of it. *)
Definition canonical (o : t) : Prop :=
  StronglySorted (fun k k' => goes_before k' k = false) (keys o).

End Properties.

Arguments t : clear implicits.

End Obj.

(** ** Reading a parsed layout element as a configuration *)

Module Layout.

(** [v[name]] on a parsed JSON value; when a key is repeated, [JSON.parse]
    keeps the last one. *)
Fixpoint lookup (name : string) (fields : list (string * value)) : value :=
  match fields with
  | [] => VUndefined
  | (k, v) :: rest =>
      match lookup name rest with
      | VUndefined => if (name =? k)%string then v else VUndefined
      | later => later
      end
  end.

Definition get_field (name : string) (v : value) : value :=
  match v with
  | VObj fields => lookup name fields
  | _ => VUndefined
  end.

Definition as_string (v : value) : option string :=
  match v with VStr s => Some s | _ => None end.

Definition as_int (v : value) : option Z :=
  match v with VNum n => Some n | _ => None end.

Definition as_bool (v : value) : option bool :=
  match v with VBool b => Some b | _ => None end.

(** The fields [addTrigger] and the constructor read from an element of
    the loaded array.  Reading a property of [null] throws: [None].  The
    elements meant are those [serialize] writes; a field holding a value of
    another type than [serialize] gives it is read as absent, which is
    where this reading is narrower than JavaScript. *)
Definition config_of_value (v : value) : option Config :=
  match v with
  | VNull | VUndefined => None
  | _ =>
      Some (mkConfig
              (as_string (get_field "id" v))
              (as_int (get_field "delay" v))
              (get_field "activateOn" v)
              (get_field "deactivateOn" v)
              (get_field "triggerOn" v)
              (as_string (get_field "whenTriggered" v))
              (as_bool (get_field "initialState" v))
              (match as_int (get_field "x" v) with Some n => n | None => 0 end)
              (match as_int (get_field "y" v) with Some n => n | None => 0 end))
  end.



End Layout.

(** ** The simulator (simulator.js, class Simulator) *)

(** A field of the edit panel after a change: the panel has one number
    input (delay, read with [parseInt]) and four text inputs. *)
Inductive edit : Type :=
| EditDelay (parsed : Z)
| EditActivateOn (text : string)
| EditDeactivateOn (text : string)
| EditTriggerOn (text : string)
| EditWhenTriggered (text : string).

Module Simulator.

(** The fields of the simulator the engine uses, followed by the part of
    the host it acts on: the log pane, the alerts shown, the errors written
    to the console, and the pending [setTimeout] callbacks of [run] (each
    with the channel its closure captured). *)
Record t : Type := mk {
  triggers : Obj.t Trigger.t;
  eventQueue : Queue.t;
  time : Z;
  isSimulating : bool;
  selectedTrigger : option string;
  activeTimeouts : list nat;
  logOutput : list log_entry;
  alerts : list string;
  consoleErrors : list string;
  timers : list (nat * string);
  nextTimeoutId : nat
}.

(** [new Simulator()], lines 133-162. *)
Definition new : t :=
  mk Obj.empty [] 0 false None [] [] [] [] [] 0%nat.

Definition set_triggers (this : t) (v : Obj.t Trigger.t) : t :=
  mk v (eventQueue this) (time this) (isSimulating this)
     (selectedTrigger this) (activeTimeouts this) (logOutput this)
     (alerts this) (consoleErrors this) (timers this) (nextTimeoutId this).

Definition set_eventQueue (this : t) (v : Queue.t) : t :=
  mk (triggers this) v (time this) (isSimulating this)
     (selectedTrigger this) (activeTimeouts this) (logOutput this)
     (alerts this) (consoleErrors this) (timers this) (nextTimeoutId this).

Definition set_time (this : t) (v : Z) : t :=
  mk (triggers this) (eventQueue this) v (isSimulating this)
     (selectedTrigger this) (activeTimeouts this) (logOutput this)
     (alerts this) (consoleErrors this) (timers this) (nextTimeoutId this).

Definition set_isSimulating (this : t) (v : bool) : t :=
  mk (triggers this) (eventQueue this) (time this) v
     (selectedTrigger this) (activeTimeouts this) (logOutput this)
     (alerts this) (consoleErrors this) (timers this) (nextTimeoutId this).

Definition set_selectedTrigger (this : t) (v : option string) : t :=
  mk (triggers this) (eventQueue this) (time this) (isSimulating this)
     v (activeTimeouts this) (logOutput this)
     (alerts this) (consoleErrors this) (timers this) (nextTimeoutId this).

Definition set_activeTimeouts (this : t) (v : list nat) : t :=
  mk (triggers this) (eventQueue this) (time this) (isSimulating this)
     (selectedTrigger this) v (logOutput this)
     (alerts this) (consoleErrors this) (timers this) (nextTimeoutId this).

Definition set_logOutput (this : t) (v : list log_entry) : t :=
  mk (triggers this) (eventQueue this) (time this) (isSimulating this)
     (selectedTrigger this) (activeTimeouts this) v
     (alerts this) (consoleErrors this) (timers this) (nextTimeoutId this).

Definition set_alerts (this : t) (v : list string) : t :=
  mk (triggers this) (eventQueue this) (time this) (isSimulating this)
     (selectedTrigger this) (activeTimeouts this) (logOutput this)
     v (consoleErrors this) (timers this) (nextTimeoutId this).

Definition set_consoleErrors (this : t) (v : list string) : t :=
  mk (triggers this) (eventQueue this) (time this) (isSimulating this)
     (selectedTrigger this) (activeTimeouts this) (logOutput this)
     (alerts this) v (timers this) (nextTimeoutId this).

Definition set_timers (this : t) (v : list (nat * string)) : t :=
  mk (triggers this) (eventQueue this) (time this) (isSimulating this)
     (selectedTrigger this) (activeTimeouts this) (logOutput this)
     (alerts this) (consoleErrors this) v (nextTimeoutId this).

Definition set_nextTimeoutId (this : t) (v : nat) : t :=
  mk (triggers this) (eventQueue this) (time this) (isSimulating this)
     (selectedTrigger this) (activeTimeouts this) (logOutput this)
     (alerts this) (consoleErrors this) (timers this) v.

(** *** The host: log pane, alerts, timers *)

(** [logEvent(message)], lines 419-424: the new line goes on top. *)
Definition logEvent (entry : log_entry) (this : t) : t :=
  set_logOutput this (entry :: logOutput this).

Definition alert (message : string) (this : t) : t :=
  set_alerts this (alerts this ++ [message]).

Definition console_error (message : string) (this : t) : t :=
  set_consoleErrors this (consoleErrors this ++ [message]).

(** [setTimeout(callback, 700)] for the callback of [run] that captured
    [channel]; gives the new timer's id. *)
Definition setTimeout (channel : string) (this : t) : nat * t :=
  let timeoutId := nextTimeoutId this in
  (timeoutId,
   set_nextTimeoutId
     (set_timers this (timers this ++ [(timeoutId, channel)]))
     (S timeoutId)).

(** [clearTimeout(id)] *)
Definition clearTimeout (timeoutId : nat) (this : t) : t :=
  set_timers this
    (filter (fun p => negb (fst p =? timeoutId)%nat) (timers this)).

(** *** The registry *)

(** [selectTrigger(trigger)], lines 341-353; the trigger is named by its
    registry key. *)
Definition selectTrigger (trigger : option string) (this : t) : t :=
  set_selectedTrigger this trigger.

(** [addTrigger(config)], lines 240-249: the trigger registered, or null. *)
Definition addTrigger (config : Config) (this : t) : option Trigger.t * t :=
  match c_id config with
  | None => (None, alert "Invalid or duplicate trigger ID." this)
  | Some key =>
      if negb (nonempty key) || Obj.get_truthy key (triggers this)
      then (None, alert "Invalid or duplicate trigger ID." this)
      else
        let trigger := Trigger.new config in
        let this := set_triggers this (Obj.set key trigger (triggers this)) in
        let this := logEvent (LogCreated key) this in
        (Some trigger, this)
  end.

(** [deleteTrigger(triggerId)], lines 251-258.  For a name that is not an
    own key the function returns at once, or, when the name is inherited,
    stops with a TypeError at [trigger.element.remove()]; either way nothing
    has been changed. *)
Definition deleteTrigger (triggerId : string) (this : t) : t :=
  match Obj.own triggerId (triggers this) with
  | None => this
  | Some _ =>
      let this := set_triggers this (Obj.delete triggerId (triggers this)) in
      let this := selectTrigger None this in
      logEvent (LogDeleted triggerId) this
  end.

(** *** The run loop *)

(** [run()], lines 302-338, up to and including the [setTimeout] call. *)
Definition run (this : t) : t :=
  if (List.length (eventQueue this) =? 0)%nat then
    let this := logEvent LogSimulationEnd this in
    set_isSimulating this false
  else
    match Queue.pop (eventQueue this) with
    | None => this
    | Some (ev, rest) =>
        let this := set_eventQueue this rest in
        let this := set_time this (Event.time ev) in
        let this :=
          logEvent (LogProcessing (Event.time ev) (Event.channel ev)) this in
        let '(timeoutId, this) := setTimeout (Event.channel ev) this in
        set_activeTimeouts this (activeTimeouts this ++ [timeoutId])
    end.

(** The [forEach] of lines 328-331 over [Object.values(this.triggers)]:
    every trigger is handed the same queue object and the log pane. *)
Fixpoint broadcast (channel : string) (currentTime : Z)
    (ts : Obj.t Trigger.t) (queue : Queue.t) (log : list log_entry)
    (handledAtLeastOnce : bool)
  : Obj.t Trigger.t * Queue.t * list log_entry * bool :=
  match ts with
  | [] => ([], queue, log, handledAtLeastOnce)
  | (k, trigger) :: rest =>
      let r := Trigger.handlePulse trigger channel queue currentTime log in
      let handledAtLeastOnce :=
        if Trigger.handled r then true else handledAtLeastOnce in
      let '(rest', queue, log, handledAtLeastOnce) :=
        broadcast channel currentTime rest
          (Trigger.eventQueue' r) (Trigger.log' r) handledAtLeastOnce in
      ((k, Trigger.this' r) :: rest', queue, log, handledAtLeastOnce)
  end.

(** The callback [run] hands to [setTimeout], lines 323-336. *)
Definition deliver (channel : string) (this : t) : t :=
  let this := set_activeTimeouts this (tl (activeTimeouts this)) in
  let '(ts, queue, log, handledAtLeastOnce) :=
    broadcast channel (time this) (triggers this) (eventQueue this)
      (logOutput this) false in
  let this := set_triggers this ts in
  let this := set_eventQueue this queue in
  let this := set_logOutput this log in
  let this :=
    if negb handledAtLeastOnce then logEvent (LogNotHandled channel) this
    else this in
  run this.

(** The host fires the pending timer [timeoutId]: it leaves the pending
    set and its callback runs.  A timer that is not pending does nothing. *)
Definition timer_fires (timeoutId : nat) (this : t) : t :=
  match find (fun p => (fst p =? timeoutId)%nat) (timers this) with
  | None => this
  | Some (_, channel) => deliver channel (clearTimeout timeoutId this)
  end.

(** [pulseChannel(channel, time = 0)], lines 260-273. *)
Definition pulseChannel (channel : string) (time : Z) (this : t) : t :=
  if isSimulating this then logEvent LogCannotPulse this
  else if negb (nonempty channel) then
    alert "Channel name cannot be empty." this
  else
    let this := set_isSimulating this true in
    let this := logEvent (LogInjecting channel time) this in
    let this :=
      set_eventQueue this
        (Queue.push (Event.mk time channel (Some "EXTERNAL")) (eventQueue this)) in
    run this.

(** [manuallyTrigger(triggerId)], lines 275-300.  An inherited name reads
    as an object without a [state], which the function reports as
    inactive. *)
Definition manuallyTrigger (triggerId : string) (this : t) : t :=
  if isSimulating this then logEvent LogCannotManually this
  else
    match Obj.own triggerId (triggers this) with
    | None =>
        if Obj.inherited triggerId
        then logEvent (LogCannotManuallyInactive triggerId) this
        else this
    | Some trigger =>
        if negb (Trigger.state trigger)
        then logEvent (LogCannotManuallyInactive triggerId) this
        else
          let this := set_isSimulating this true in
          let this := logEvent (LogManually triggerId (time this)) this in
          let this :=
            match Trigger.whenTriggered trigger with
            | Some w =>
                if nonempty w then
                  let fireTime := time this + Trigger.delay trigger in
                  let this := logEvent (LogScheduling w fireTime) this in
                  set_eventQueue this
                    (Queue.push (Event.mk fireTime w (Trigger.id trigger))
                                (eventQueue this))
                else this
            | None => this
            end in
          run this
    end.

(** The click handler of the pulse button, lines 482-485: the text of the
    input is trimmed and pulsed at the default time. *)
Definition pulse_channel_button (input : string) (this : t) : t :=
  pulseChannel (Str.trim input) 0 this.

(** *** Editing, toggling, reset *)

(** The assignments of [updateTriggerProperty], lines 378-388, for each
    input of the edit panel.
    - delay (a number input): [value = parseInt(value)]; the property is
      not an array, so the last [if] stores the parsed number.
    - the three channel lists: [parseChannels(value)] is stored; it is an
      array, so the last [if] leaves it.
    - whenTriggered: [value || null] is stored first; null or a string is
      not an array, so the last [if] stores [value] itself over it. *)
Definition apply_edit (e : edit) (selected : Trigger.t) : Trigger.t :=
  match e with
  | EditDelay parsed => Trigger.set_delay selected parsed
  | EditActivateOn text =>
      Trigger.set_activateOn selected (parseChannels (VStr text))
  | EditDeactivateOn text =>
      Trigger.set_deactivateOn selected (parseChannels (VStr text))
  | EditTriggerOn text =>
      Trigger.set_triggerOn selected (parseChannels (VStr text))
  | EditWhenTriggered text =>
      let selected :=
        Trigger.set_whenTriggered selected
          (if nonempty text then Some text else None) in
      Trigger.set_whenTriggered selected (Some text)
  end.

Definition property_of (e : edit) : string :=
  match e with
  | EditDelay _ => "delay"
  | EditActivateOn _ => "activateOn"
  | EditDeactivateOn _ => "deactivateOn"
  | EditTriggerOn _ => "triggerOn"
  | EditWhenTriggered _ => "whenTriggered"
  end.

(** [updateTriggerProperty(e)], lines 373-392.  [this.selectedTrigger] is
    the registered object itself, so the edit shows in the registry. *)
Definition updateTriggerProperty (e : edit) (this : t) : t :=
  match selectedTrigger this with
  | None => this
  | Some key =>
      match Obj.own key (triggers this) with
      | None => this
      | Some selected =>
          let this :=
            set_triggers this
              (Obj.replace key (apply_edit e selected) (triggers this)) in
          logEvent (LogUpdated (property_of e) (Trigger.id selected)) this
      end
  end.

(** The "Toggle State" button of the trigger registered under [key],
    lines 91-98. *)
Definition toggleState (key : string) (this : t) : t :=
  match Obj.own key (triggers this) with
  | None => this
  | Some trigger =>
      if isSimulating this then this
      else
        let trigger := Trigger.toggle trigger in
        let this :=
          set_triggers this (Obj.replace key trigger (triggers this)) in
        logEvent (LogToggled (Trigger.id trigger) (Trigger.state trigger)) this
  end.

(** [this.activeTimeouts.forEach(id => clearTimeout(id))] *)
Definition clear_timeouts (this : t) : t :=
  fold_left (fun this timeoutId => clearTimeout timeoutId this)
            (activeTimeouts this) this.

(** [clear()], lines 394-405. *)
Definition clear (this : t) : t :=
  let this := set_isSimulating this false in
  let this := clear_timeouts this in
  let this := set_activeTimeouts this [] in
  let this := set_eventQueue this [] in
  let this := set_time this 0 in
  let this := set_logOutput this [] in
  let this := set_triggers this Obj.empty in
  selectTrigger None this.

(** [resetSimulation()], lines 407-417. *)
Definition resetSimulation (this : t) : t :=
  let this := set_isSimulating this false in
  let this := clear_timeouts this in
  let this := set_activeTimeouts this [] in
  let this := set_eventQueue this [] in
  let this := set_time this 0 in
  let this := set_logOutput this [] in
  let this :=
    set_triggers this
      (map (fun p => (fst p, Trigger.reset (snd p))) (triggers this)) in
  logEvent LogReset this.

(** *** Saving and loading *)

(** [saveLayout()], lines 427-440: the data written to the file. *)
Definition saveLayout (this : t) : list Config * t :=
  let layoutData := map Trigger.serialize (Obj.values (triggers this)) in
  (layoutData, logEvent LogSaved this).

(** [layoutData.forEach(config => this.addTrigger(config))]; the flag is
    false when an element made [addTrigger] throw, which ends the loop. *)
Fixpoint add_all (layoutData : list value) (this : t) : bool * t :=
  match layoutData with
  | [] => (true, this)
  | v :: rest =>
      match Layout.config_of_value v with
      | None => (false, this)
      | Some config => add_all rest (snd (addTrigger config this))
      end
  end.

(** The [catch] block of [loadLayout], lines 453-456. *)
Definition load_failed (this : t) : t :=
  let this :=
    alert "Failed to load layout. The file may be corrupted or in the wrong format."
          this in
  console_error "Load error:" this.

(** A user action or a host event. *)
Inductive action : Type :=
| DoAddTrigger (config : Config)
| DoSelect (trigger : option string)
| DoDelete
| DoUpdate (e : edit)
| DoToggle (key : string)
| DoManualTrigger (key : string)
| DoPulse (channel : string) (time : Z)
| DoReset
| DoSave
| DoLoad (text : string)
| TimerFires (timeoutId : nat).

Section Host.

(** [JSON.parse]: [None] when it throws. *)
Variable JSON_parse : string -> option value.

(** [reader.onload], lines 445-457, on the text of the file. *)
Definition loadLayout_onload (text : string) (this : t) : t :=
  match JSON_parse text with
  | None => load_failed this
  | Some layoutData =>
      if negb (isArray layoutData) then load_failed this
      else
        let this := clear this in
        match layoutData with
        | VArr items =>
            match add_all items this with
            | (true, this) => logEvent LogLoaded this
            | (false, this) => load_failed this
            end
        | _ => this
        end
  end.

(** What each action runs.  A trigger's element and buttons exist only
    while the trigger is registered, and the delete button belongs to the
    selected trigger. *)
Definition step (a : action) (this : t) : t :=
  match a with
  | DoAddTrigger config => snd (addTrigger config this)
  | DoSelect None => selectTrigger None this
  | DoSelect (Some key) =>
      if Obj.has_own key (triggers this) then selectTrigger (Some key) this
      else this
  | DoDelete =>
      match selectedTrigger this with
      | Some key => deleteTrigger key this
      | None => this
      end
  | DoUpdate e => updateTriggerProperty e this
  | DoToggle key => toggleState key this
  | DoManualTrigger key => manuallyTrigger key this
  | DoPulse channel time => pulseChannel channel time this
  | DoReset => resetSimulation this
  | DoSave => snd (saveLayout this)
  | DoLoad text => loadLayout_onload text this
  | TimerFires timeoutId => timer_fires timeoutId this
  end.

(** The states the page can be in. *)
Inductive reachable : t -> Prop :=
| reachable_new : reachable new
| reachable_step a this : reachable this -> reachable (step a this).

End Host.

(** One run observed from outside: the pending timers fire one after the
    other, [n] times at most; the result lists the clock after each
    delivery step, oldest first. *)
Fixpoint clock_trace (n : nat) (this : t) : list Z :=
  match n with
  | O => []
  | S n' =>
      match timers this with
      | [] => []
      | (timeoutId, _) :: _ =>
          let this := timer_fires timeoutId this in
          time this :: clock_trace n' this
      end
  end.

(** *** What holds in every state the page can be in *)

(** The pending callbacks of [run] are the ones [activeTimeouts] lists,
    there is one at most, and while no run is in progress nothing is
    pending and the queue is empty. *)
Definition timers_tracked (this : t) : Prop :=
  map fst (timers this) = activeTimeouts this
  /\ (List.length (timers this) <= 1)%nat
  /\ (isSimulating this = false -> timers this = [] /\ eventQueue this = []).


(** Every delay is non-negative. *)
Definition delays_nonneg (ts : Obj.t Trigger.t) : Prop :=
  Forall (fun p => 0 <= Trigger.delay (snd p)) ts.

(** No queued event is earlier than the clock. *)
Definition queue_in_future (this : t) : Prop :=
  Forall (fun e => time this <= Event.time e) (eventQueue this).


(** A registered entry: its key is not empty, is not an inherited name,
    and is the id of the trigger it holds. *)
Definition entry_ok (p : string * Trigger.t) : Prop :=
  nonempty (fst p) = true
  /\ Obj.inherited (fst p) = false
  /\ Trigger.id (snd p) = Some (fst p).

(** The registry is well formed: distinct keys in enumeration order,
    every entry as above, and the selection names a registered trigger. *)
Definition registry_wf (this : t) : Prop :=
  NoDup (Obj.keys (triggers this))
  /\ Forall entry_ok (triggers this)
  /\ Obj.canonical (triggers this)
  /\ (forall key, selectedTrigger this = Some key ->
                 In key (Obj.keys (triggers this))).

(** Every channel waiting to be delivered, in the queue or in a pending
    timer, is a non-empty string. *)
Definition channels_nonempty (this : t) : Prop :=
  Forall (fun e => nonempty (Event.channel e) = true) (eventQueue this)
  /\ Forall (fun p => nonempty (snd p) = true) (timers this).



End Simulator.

(** ** The default example (simulator.js, lines 493-500) *)

Module Example.

Definition T_A_MEM : Config :=
  mkConfig (Some "T_A_MEM") None (VStr "A_ON") (VStr "RESET") VUndefined
           None (Some true) 50 100.

Definition T_B_MEM : Config :=
  mkConfig (Some "T_B_MEM") None (VStr "B_ON") (VStr "RESET") VUndefined
           None (Some true) 50 250.

Definition T_CHAIN : Config :=
  mkConfig (Some "T_CHAIN") (Some 2) (VStr "A_ON") (VStr "RESET")
           (VStr "B_ON") (Some "AND_SUCCESS") None 300 175.

Definition T_RESULT : Config :=
  mkConfig (Some "T_RESULT") None (VStr "AND_SUCCESS") (VStr "RESET")
           VUndefined None None 550 175.


(** A stand-in for [JSON.parse] that reads three texts and throws on any
    other. *)
Definition parse (text : string) : option value :=
  if (text =? "[]")%string then Some (VArr [])
  else if (text =? "{}")%string then Some (VObj [])
  else if (text =? "null")%string then Some VNull
  else None.

(** The actions of a session: pulse RESET and let it be delivered, then
    A_ON, then B_ON, whose delivery schedules AND_SUCCESS. *)
Definition pulse_RESET : list Simulator.action :=
  [Simulator.DoPulse "RESET" 0; Simulator.TimerFires 0].

Definition pulse_A_ON : list Simulator.action :=
  [Simulator.DoPulse "A_ON" 0; Simulator.TimerFires 1].

Definition pulse_B_ON : list Simulator.action :=
  [Simulator.DoPulse "B_ON" 0; Simulator.TimerFires 2].

(** The page after the four [addTrigger] calls of the [load] handler,
    followed by [actions]. *)
Definition session (actions : list Simulator.action) : Simulator.t :=
  fold_left (fun this a => Simulator.step parse a this) actions
    (Simulator.step parse (Simulator.DoAddTrigger T_RESULT)
       (Simulator.step parse (Simulator.DoAddTrigger T_CHAIN)
          (Simulator.step parse (Simulator.DoAddTrigger T_B_MEM)
             (Simulator.step parse (Simulator.DoAddTrigger T_A_MEM)
                Simulator.new)))).


(** The states of every registered trigger, in broadcast order. *)
Definition states (this : Simulator.t) : list (string * bool) :=
  map (fun p => (fst p, Trigger.state (snd p))) (Simulator.triggers this).

End Example.

(** * Properties *)

(** ** Strings: [trim], [split], [join] *)

Module StrFacts.
Import Str.

Lemma nonempty_true (s : string) : nonempty s = true <-> s <> "".
Proof.
  unfold nonempty. rewrite negb_true_iff. split; intro H.
  - intro E. subst. discriminate.
  - apply String.eqb_neq. exact H.
Qed.

Lemma trimStart_decompose (s : string) :
  exists a, s = (a ++ trimStart s)%string /\ all_ws a = true.
Proof.
  induction s as [|c s IH]; simpl.
  - exists ""; auto.
  - destruct (is_white_space c) eqn:Hc.
    + destruct IH as [a [E Ha]]. exists (String c a). simpl.
      rewrite Hc, Ha. split; [f_equal; exact E | reflexivity].
    + exists "". auto.
Qed.

Lemma trimStart_starts (s : string) : starts_ws (trimStart s) = false.
Proof.
  induction s as [|c s IH]; simpl; auto.
  destruct (is_white_space c) eqn:Hc; simpl; auto.
Qed.

Lemma trimStart_fixed (s : string) : starts_ws s = false -> trimStart s = s.
Proof. destruct s as [|c s]; simpl; auto. intros ->. reflexivity. Qed.

Lemma trimEnd_decompose (s : string) :
  exists b, s = (trimEnd s ++ b)%string /\ all_ws b = true.
Proof.
  induction s as [|c s IH]; simpl.
  - exists ""; auto.
  - destruct IH as [b [E Hb]].
    destruct (trimEnd s) as [|d r] eqn:Ht.
    + simpl in E. subst b.
      destruct (is_white_space c) eqn:Hc.
      * exists (String c s). simpl. rewrite Hc, Hb. auto.
      * exists s. auto.
    + exists b. split; [|exact Hb]. simpl. f_equal. exact E.
Qed.

Lemma trimEnd_ends (s : string) : ends_ws (trimEnd s) = false.
Proof.
  induction s as [|c s IH]; simpl; auto.
  destruct (trimEnd s) as [|d r] eqn:Ht.
  - destruct (is_white_space c) eqn:Hc; simpl; auto.
  - exact IH.
Qed.

Lemma trimEnd_starts (s : string) :
  starts_ws s = false -> starts_ws (trimEnd s) = false.
Proof.
  destruct s as [|c s]; simpl; auto. intro Hc.
  destruct (trimEnd s); [rewrite Hc|]; simpl; auto.
Qed.

Lemma trimEnd_fixed (s : string) : ends_ws s = false -> trimEnd s = s.
Proof.
  induction s as [|c s IH]; simpl; auto.
  destruct s as [|d r].
  - simpl. intros ->. reflexivity.
  - intro H. rewrite (IH H). reflexivity.
Qed.

Lemma trim_is_trim_of (s : string) : is_trim_of s (trim s).
Proof.
  unfold is_trim_of, trim.
  destruct (trimStart_decompose s) as [a [Ea Ha]].
  destruct (trimEnd_decompose (trimStart s)) as [b [Eb Hb]].
  exists a, b. repeat split; auto.
  - rewrite <- Eb. exact Ea.
  - apply trimEnd_starts, trimStart_starts.
  - apply trimEnd_ends.
Qed.

Lemma trim_starts (s : string) : starts_ws (trim s) = false.
Proof. apply trimEnd_starts, trimStart_starts. Qed.

Lemma trim_ends (s : string) : ends_ws (trim s) = false.
Proof. apply trimEnd_ends. Qed.

Lemma trim_fixed (s : string) :
  starts_ws s = false -> ends_ws s = false -> trim s = s.
Proof.
  intros H1 H2. unfold trim. rewrite (trimStart_fixed s H1).
  apply trimEnd_fixed, H2.
Qed.

Lemma trim_space (s : string) : trim (String " " s) = trim s.
Proof. reflexivity. Qed.

Lemma no_comma_app (a b : string) :
  no_comma (a ++ b) = no_comma a && no_comma b.
Proof.
  induction a as [|c a IH]; simpl; auto.
  rewrite IH. apply andb_assoc.
Qed.

Lemma trim_no_comma (s : string) : no_comma s = true -> no_comma (trim s) = true.
Proof.
  destruct (trim_is_trim_of s) as [a [b [E _]]].
  intro H. rewrite E in H. rewrite !no_comma_app in H.
  apply andb_prop in H. destruct H as [_ H].
  apply andb_prop in H. tauto.
Qed.

Lemma split_comma_not_nil (s : string) : split_comma s <> [].
Proof.
  induction s as [|c s IH]; simpl; try discriminate.
  destruct (is_comma c); try discriminate.
  destruct (split_comma s); [contradiction | discriminate].
Qed.

Lemma is_comma_true (c : ascii) : is_comma c = true -> c = ","%char.
Proof. apply Ascii.eqb_eq. Qed.

Lemma split_comma_join (s : string) : join "," (split_comma s) = s.
Proof.
  induction s as [|c s IH]; simpl; auto.
  destruct (is_comma c) eqn:Hc.
  - apply is_comma_true in Hc. subst c.
    pose proof (split_comma_not_nil s) as Hn.
    destruct (split_comma s) as [|p ps]; [contradiction|].
    simpl in *. rewrite IH. reflexivity.
  - pose proof (split_comma_not_nil s) as Hn.
    destruct (split_comma s) as [|p ps]; [contradiction|].
    destruct ps as [|q qs]; simpl in *; rewrite <- IH; reflexivity.
Qed.

Lemma split_comma_no_comma (s : string) :
  Forall (fun p => no_comma p = true) (split_comma s).
Proof.
  induction s as [|c s IH]; simpl.
  - repeat constructor.
  - destruct (is_comma c) eqn:Hc.
    + constructor; auto.
    + destruct (split_comma s) as [|p ps].
      * repeat constructor. simpl. rewrite Hc. reflexivity.
      * inversion IH; subst. constructor; auto. simpl. rewrite Hc. auto.
Qed.

(** Splitting a text that starts with a piece free of commas. *)
Lemma split_comma_app (a b : string) :
  no_comma a = true ->
  split_comma (a ++ b) =
    match split_comma b with
    | p :: ps => (a ++ p)%string :: ps
    | [] => [a]
    end.
Proof.
  induction a as [|c a IH]; simpl; intro H.
  - pose proof (split_comma_not_nil b) as Hn.
    destruct (split_comma b); [contradiction | reflexivity].
  - apply andb_prop in H. destruct H as [Hc Ha].
    apply negb_true_iff in Hc. rewrite Hc, (IH Ha).
    destruct (split_comma b); reflexivity.
Qed.

End StrFacts.

(** ** Channel parsing *)

Module ParseFacts.
Import Str StrFacts.

Lemma append_empty_r (s : string) : (s ++ "")%string = s.
Proof. induction s as [|c s IH]; simpl; [|rewrite IH]; reflexivity. Qed.

Lemma is_name_elim (x : string) :
  is_name x = true ->
  nonempty x = true /\ no_comma x = true
  /\ starts_ws x = false /\ ends_ws x = false.
Proof.
  unfold is_name. rewrite !andb_true_iff, !negb_true_iff. tauto.
Qed.

(** Every channel parsing returns is a channel name. *)
Lemma parseChannels_names (v : value) :
  Forall (fun x => is_name x = true) (parseChannels v).
Proof.
  unfold parseChannels.
  destruct (negb (truthy v) || negb (is_string v)); [constructor|].
  destruct v; try constructor.
  pose proof (split_comma_no_comma s) as Hs.
  induction Hs as [|p ps Hp _ IH]; simpl; [constructor|].
  destruct (nonempty (trim p)) eqn:Hn; [|exact IH].
  constructor; [|exact IH].
  unfold is_name.
  rewrite Hn, (trim_no_comma p Hp), trim_starts, trim_ends. reflexivity.
Qed.


Lemma split_comma_piece (x : string) :
  no_comma x = true -> split_comma x = [x].
Proof.
  intro H. rewrite <- (append_empty_r x) at 1.
  rewrite (split_comma_app x "" H). simpl. rewrite append_empty_r.
  reflexivity.
Qed.

Lemma split_comma_joined (x : string) (l : list string) :
  Forall (fun x => is_name x = true) (x :: l) ->
  split_comma (join ", " (x :: l)) = x :: map (String " ") l.
Proof.
  revert x. induction l as [|y l IH]; intros x H.
  - simpl. inversion H; subst. apply split_comma_piece.
    apply is_name_elim; assumption.
  - inversion H as [|? ? Hx Hl]; subst.
    change (join ", " (x :: y :: l))
      with (x ++ String "," (String " " (join ", " (y :: l))))%string.
    rewrite split_comma_app by (apply is_name_elim; assumption).
    change (split_comma (String "," (String " " (join ", " (y :: l)))))
      with (EmptyString ::
              match split_comma (join ", " (y :: l)) with
              | p :: ps => String " " p :: ps
              | [] => [String " " EmptyString]
              end).
    rewrite (IH y Hl), append_empty_r. reflexivity.
Qed.

Lemma join_names_nonempty (x : string) (l : list string) :
  nonempty x = true -> nonempty (join ", " (x :: l)) = true.
Proof.
  destruct x as [|c x]; [discriminate|]. intros _.
  destruct l; reflexivity.
Qed.

Lemma trim_name (x : string) : is_name x = true -> trim x = x.
Proof. intro H. apply is_name_elim in H. apply trim_fixed; tauto. Qed.

Lemma filter_trim_spaced (l : list string) :
  Forall (fun x => is_name x = true) l ->
  filter nonempty (map trim (map (String " ") l)) = l.
Proof.
  induction 1 as [|y l Hy _ IH]; simpl; auto.
  fold (trim (String " " y)). rewrite trim_space, (trim_name y Hy), IH.
  apply is_name_elim in Hy. destruct Hy as [-> _]. reflexivity.
Qed.

(** Parsing the text [join] writes gives the list back. *)
Lemma parseChannels_join (l : list string) :
  Forall (fun x => is_name x = true) l ->
  parseChannels (VStr (join ", " l)) = l.
Proof.
  intro H. destruct l as [|x l]; [reflexivity|].
  pose proof H as H'. inversion H' as [|? ? Hx Hl]; subst.
  unfold parseChannels.
  assert (Hne : nonempty (join ", " (x :: l)) = true)
    by (apply join_names_nonempty, is_name_elim; assumption).
  unfold truthy, is_string. fold (nonempty (join ", " (x :: l))).
  rewrite Hne. simpl negb. simpl orb. cbv iota.
  rewrite (split_comma_joined x l H).
  simpl map. simpl filter.
  rewrite (trim_name x Hx).
  apply is_name_elim in Hx. destruct Hx as [-> _].
  rewrite (filter_trim_spaced l Hl). reflexivity.
Qed.

Lemma parseChannels_string (s : string) :
  parseChannels (VStr s) = filter nonempty (map trim (split_comma s)).
Proof.
  unfold parseChannels. simpl. fold (nonempty s).
  destruct s as [|c s]; reflexivity.
Qed.

Lemma trimStart_all_ws (b : string) : all_ws b = true -> trimStart b = "".
Proof.
  induction b as [|c b IH]; simpl; [reflexivity|].
  intro H. apply andb_prop in H. destruct H as [Hc Hb].
  rewrite Hc. apply IH, Hb.
Qed.

Lemma trimStart_app_ws (a r : string) :
  all_ws a = true -> trimStart (a ++ r) = trimStart r.
Proof.
  induction a as [|c a IH]; simpl; [reflexivity|].
  intro H. apply andb_prop in H. destruct H as [Hc Ha].
  rewrite Hc. apply IH, Ha.
Qed.

Lemma trimEnd_all_ws (b : string) : all_ws b = true -> trimEnd b = "".
Proof.
  induction b as [|c b IH]; simpl; [reflexivity|].
  intro H. apply andb_prop in H. destruct H as [Hc Hb].
  rewrite (IH Hb), Hc. reflexivity.
Qed.

Lemma trimEnd_app_ws (t b : string) :
  all_ws b = true -> trimEnd (t ++ b) = trimEnd t.
Proof.
  intro Hb. induction t as [|c t IH]; simpl.
  - apply trimEnd_all_ws, Hb.
  - rewrite IH. reflexivity.
Qed.

(** [is_trim_of] names one string: the one [trim] computes. *)
Lemma is_trim_of_trim (s t : string) : is_trim_of s t -> trim s = t.
Proof.
  intros (a & b & E & Ha & Hb & Hs & He). subst s. unfold trim.
  rewrite (trimStart_app_ws a _ Ha).
  destruct t as [|c t].
  - simpl. rewrite (trimStart_all_ws b Hb). reflexivity.
  - rewrite trimStart_fixed by exact Hs.
    rewrite (trimEnd_app_ws _ b Hb). apply trimEnd_fixed, He.
Qed.

Lemma Forall2_trim_unique (pieces trimmed : list string) :
  Forall2 is_trim_of pieces trimmed -> map trim pieces = trimmed.
Proof.
  induction 1 as [|p t ps ts Hp _ IH]; simpl; [reflexivity|].
  rewrite (is_trim_of_trim p t Hp), IH. reflexivity.
Qed.

(** Splitting the [","]-join of comma-free pieces gives the pieces. *)
Lemma split_comma_of_join (p : string) (pieces : list string) :
  Forall (fun x => no_comma x = true) (p :: pieces) ->
  split_comma (join "," (p :: pieces)) = p :: pieces.
Proof.
  revert p. induction pieces as [|q pieces IH]; intros p H.
  - simpl. apply split_comma_piece. inversion H; assumption.
  - inversion H as [|? ? Hp Hq]; subst.
    change (join "," (p :: q :: pieces))
      with (p ++ String "," (join "," (q :: pieces)))%string.
    rewrite (split_comma_app p _ Hp).
    change (split_comma (String "," (join "," (q :: pieces))))
      with (EmptyString :: split_comma (join "," (q :: pieces))).
    rewrite (IH q Hq), append_empty_r. reflexivity.
Qed.

(** Parsing the [","]-join of comma-free pieces. *)
Lemma parseChannels_pieces (pieces trimmed : list string) :
  Forall (fun x => no_comma x = true) pieces ->
  Forall2 is_trim_of pieces trimmed ->
  parseChannels (VStr (join "," pieces)) = filter nonempty trimmed.
Proof.
  intros Hc Ht. rewrite parseChannels_string.
  rewrite <- (Forall2_trim_unique pieces trimmed Ht).
  destruct pieces as [|p pieces]; [reflexivity|].
  rewrite (split_comma_of_join p pieces Hc). reflexivity.
Qed.

End ParseFacts.

Example parseChannels_sample :
  parseChannels (VStr " A_ON,  B_ON ,, A_ON , ") = ["A_ON"; "B_ON"; "A_ON"].
Proof. reflexivity. Qed.

(** C7. [parseChannels] gives the empty list for an absent or non-string
    input.  Every string is the [","]-join of pieces free of commas, and
    parsing such a join gives, in order and with duplicates, the non-empty
    ones among the trimmed pieces.  Parsing the [', ']-joined result of a
    parse gives that result again. *)
Theorem parseChannels_spec :
  (parseChannels VUndefined = [] /\ parseChannels VNull = []
   /\ (forall b, parseChannels (VBool b) = [])
   /\ (forall n, parseChannels (VNum n) = [])
   /\ (forall items, parseChannels (VArr items) = [])
   /\ (forall fields, parseChannels (VObj fields) = []))
  /\ (forall s, exists pieces,
         s = Str.join "," pieces
         /\ Forall (fun p => Str.no_comma p = true) pieces)
  /\ (forall pieces trimmed,
         Forall (fun p => Str.no_comma p = true) pieces ->
         Forall2 Str.is_trim_of pieces trimmed ->
         parseChannels (VStr (Str.join "," pieces)) = filter nonempty trimmed)
  /\ (forall v,
         parseChannels (VStr (Str.join ", " (parseChannels v)))
         = parseChannels v).
Proof.
  split; [|split; [|split]].
  - repeat split; intros; unfold parseChannels; simpl;
      rewrite ?orb_true_r; reflexivity.
  - intro s. exists (Str.split_comma s).
    split; [symmetry; apply StrFacts.split_comma_join|].
    apply StrFacts.split_comma_no_comma.
  - apply ParseFacts.parseChannels_pieces.
  - intro v. apply ParseFacts.parseChannels_join, ParseFacts.parseChannels_names.
Qed.

Lemma parseChannels_spec_witness :
  parseChannels (VStr (Str.join "," [" A_ON"; "  "; "B_ON "; "A_ON"]))
  = filter nonempty ["A_ON"; ""; "B_ON"; "A_ON"].
Proof.
  destruct parseChannels_spec as (_ & _ & H & _).
  apply H.
  - repeat constructor.
  - repeat constructor.
    + exists " ", "". repeat split.
    + exists "  ", "". repeat split.
    + exists "", " ". repeat split.
    + exists "", "". repeat split.
Defined.

(** ** Pulse handling *)

Module PulseFacts.
Import Str StrFacts ParseFacts.






(** [handlePulse] in one piece: the three guards, the state they leave,
    the flag returned and the queue. *)
Lemma handlePulse_cases (this : Trigger.t) channel queue currentTime log :
  let ga := nonempty channel && includes (Trigger.activateOn this) channel in
  let gd := nonempty channel && includes (Trigger.deactivateOn this) channel in
  let gt := nonempty channel && includes (Trigger.triggerOn this) channel in
  let st := if gd then false else if ga then true else Trigger.state this in
  let r := Trigger.handlePulse this channel queue currentTime log in
  Trigger.this' r = Trigger.set_state this st
  /\ Trigger.handled r = ga || gd || (gt && st)
  /\ Trigger.eventQueue' r
     = if gt && st
       then match Trigger.whenTriggered this with
            | Some w =>
                if nonempty w
                then queue ++ [Event.mk (currentTime + Trigger.delay this) w
                                        (Trigger.id this)]
                else queue
            | None => queue
            end
       else queue.
Proof.
  destruct this as [i d a de tr w ini st px py].
  unfold Trigger.handlePulse. cbn -[includes nonempty].
  destruct (nonempty channel && includes a channel); cbn -[includes nonempty];
    destruct (nonempty channel && includes de channel);
    cbn -[includes nonempty];
    destruct (nonempty channel && includes tr channel);
    cbn -[includes nonempty];
    try (destruct st; cbn -[includes nonempty]);
    try (destruct w as [w|]; cbn -[includes nonempty];
         try destruct (nonempty w); cbn -[includes nonempty]);
    repeat split; reflexivity.
Qed.

(** [handlePulse] touches nothing of the trigger but [state]. *)
Lemma handlePulse_this (this : Trigger.t) channel queue currentTime log :
  Trigger.this' (Trigger.handlePulse this channel queue currentTime log)
  = Trigger.set_state this
      (Trigger.state
         (Trigger.this' (Trigger.handlePulse this channel queue currentTime log))).
Proof.
  destruct (handlePulse_cases this channel queue currentTime log) as [E _].
  rewrite E. reflexivity.
Qed.




End PulseFacts.





(** ** The event queue *)

Module QueueFacts.
Import Queue QueueRun.





Lemma insert_perm (e : Event.t) (q : Queue.t) : Permutation (e :: q) (insert e q).
Proof.
  induction q as [|y q IH]; simpl; [reflexivity|].
  destruct (_ <=? _); [reflexivity|].
  rewrite perm_swap. constructor. exact IH.
Qed.

Lemma sort_perm (q : Queue.t) : Permutation q (sort q).
Proof.
  induction q as [|e q IH]; simpl; [constructor|].
  rewrite <- insert_perm. constructor. exact IH.
Qed.

Lemma insert_Forall (P : Event.t -> Prop) (e : Event.t) (q : Queue.t) :
  P e -> Forall P q -> Forall P (insert e q).
Proof.
  intros He Hq. apply (Permutation_Forall (insert_perm e q)).
  constructor; assumption.
Qed.

Lemma insert_sorted (e : Event.t) (q : Queue.t) :
  time_sorted q -> time_sorted (insert e q).
Proof.
  unfold time_sorted. induction 1 as [|y q Hq IH Hy]; simpl.
  - repeat constructor.
  - destruct (Event.time e <=? Event.time y) eqn:E.
    + apply Z.leb_le in E. constructor.
      * constructor; assumption.
      * constructor; [exact E|].
        eapply Forall_impl; [|exact Hy]. simpl. intros; lia.
    + apply Z.leb_gt in E. constructor; [exact IH|].
      apply insert_Forall; [lia | exact Hy].
Qed.

Lemma sort_sorted (q : Queue.t) : time_sorted (sort q).
Proof.
  induction q as [|e q IH]; simpl; [constructor|].
  apply insert_sorted, IH.
Qed.








(** [fifo_min] names one event and one remainder. *)
Lemma fifo_min_unique (pending : list Event.t) (m m' : Event.t)
    (rest rest' : list Event.t) :
  fifo_min pending m rest -> fifo_min pending m' rest' ->
  m = m' /\ rest = rest'.
Proof.
  intros (l1 & l2 & E & Er & H1 & H2) (l1' & l2' & E' & Er' & H1' & H2').
  subst rest rest'. rewrite E in E'. clear E pending.
  revert l1' E' H1'. induction l1 as [|x l1 IH]; intros l1' E' H1'.
  - destruct l1' as [|x' l1']; simpl in E'.
    + inversion E'; subst. split; reflexivity.
    + inversion E'; subst. exfalso.
      inversion H1' as [|? ? Hlt _]; subst.
      rewrite Forall_forall in H2.
      assert (Hin : In m' (l1' ++ m' :: l2'))
        by (apply in_or_app; right; left; reflexivity).
      specialize (H2 _ Hin). lia.
  - destruct l1' as [|x' l1']; simpl in E'.
    + inversion E'; subst. exfalso.
      inversion H1 as [|? ? Hlt _]; subst.
      rewrite Forall_forall in H2'.
      assert (Hin : In m (l1 ++ m :: l2))
        by (apply in_or_app; right; left; reflexivity).
      specialize (H2' _ Hin). lia.
    + inversion E'; subst. inversion H1; subst. inversion H1'; subst.
      destruct (IH ltac:(assumption) l1' ltac:(assumption) ltac:(assumption))
        as [Em Er].
      split; [exact Em|]. simpl. f_equal. exact Er.
Qed.







End QueueFacts.


(** ** The registry object *)

Module ObjFacts.
Import Obj.

Section Facts.
Context {A : Type}.
Implicit Types (o : Obj.t A) (k : string) (v : A).

Lemma own_replace_same k v o :
  has_own k o = true -> own k (replace k v o) = Some v.
Proof.
  unfold has_own. induction o as [|[k' v'] o IH]; simpl; [discriminate|].
  destruct (k =? k')%string eqn:E; simpl; rewrite E; auto.
Qed.

Lemma own_replace_other k k' v o :
  k' <> k -> own k' (replace k v o) = own k' o.
Proof.
  intro Hne. induction o as [|[k0 v0] o IH]; simpl; [reflexivity|].
  destruct (k =? k0)%string eqn:E; simpl.
  - apply String.eqb_eq in E. subst k0.
    apply String.eqb_neq in Hne. rewrite Hne. reflexivity.
  - rewrite IH. reflexivity.
Qed.





Lemma own_In k v o : own k o = Some v -> In (k, v) o.
Proof.
  induction o as [|[k' v'] o IH]; simpl; [discriminate|].
  destruct (k =? k')%string eqn:E.
  - apply String.eqb_eq in E. intro H. inversion H; subst. left; reflexivity.
  - intro H. right. apply IH, H.
Qed.


Lemma Forall_insert_new (P : string * A -> Prop) k v o :
  P (k, v) -> Forall P o -> Forall P (insert_new k v o).
Proof.
  intros Hv. induction 1 as [|[k' v'] o Hp Ho IH]; simpl.
  - repeat constructor. exact Hv.
  - destruct (goes_before k k'); repeat constructor; auto.
Qed.


Lemma Forall_delete (P : string * A -> Prop) k o :
  Forall P o -> Forall P (delete k o).
Proof.
  induction 1 as [|[k' v'] o Hp Ho IH]; simpl; [constructor|].
  destruct (k =? k')%string; [assumption | constructor; assumption].
Qed.

Lemma own_map (f : A -> A) k o :
  own k (map (fun p => (fst p, f (snd p))) o) = option_map f (own k o).
Proof.
  induction o as [|[k' v'] o IH]; simpl; [reflexivity|].
  destruct (k =? k')%string; [reflexivity | exact IH].
Qed.

Lemma keys_map (f : A -> A) o :
  keys (map (fun p => (fst p, f (snd p))) o) = keys o.
Proof.
  unfold keys. rewrite map_map. reflexivity.
Qed.

End Facts.

End ObjFacts.

(** ** The simulator: what every reachable state satisfies *)

Module SimFacts.
Import Simulator.

Lemma tracked_ext (this after : t) :
  timers after = timers this ->
  activeTimeouts after = activeTimeouts this ->
  isSimulating after = isSimulating this ->
  eventQueue after = eventQueue this ->
  timers_tracked this -> timers_tracked after.
Proof.
  unfold timers_tracked. intros -> -> -> ->. exact (fun H => H).
Qed.

Lemma tracked_idle (this : t) :
  timers this = [] -> activeTimeouts this = [] -> eventQueue this = [] ->
  timers_tracked this.
Proof.
  unfold timers_tracked. intros -> -> ->. simpl. repeat split; auto.
Qed.

Lemma filter_filter {B : Type} (f g : B -> bool) (l : list B) :
  filter f (filter g l) = filter (fun x => g x && f x) l.
Proof.
  induction l as [|x l IH]; simpl; [reflexivity|].
  destruct (g x); simpl; [destruct (f x)|]; rewrite IH; reflexivity.
Qed.

Lemma filter_true {B : Type} (l : list B) : filter (fun _ => true) l = l.
Proof. induction l as [|x l IH]; simpl; [|rewrite IH]; reflexivity. Qed.

Lemma set_timers_same (this : t) : set_timers this (timers this) = this.
Proof. destruct this; reflexivity. Qed.

(** Clearing every listed timeout leaves the timers that are not listed
    and touches nothing else. *)
Lemma clear_timeouts_from (ids : list nat) (this : t) :
  fold_left (fun this timeoutId => clearTimeout timeoutId this) ids this
  = set_timers this
      (filter (fun p => negb (existsb (Nat.eqb (fst p)) ids)) (timers this)).
Proof.
  revert this. induction ids as [|i ids IH]; intro this; simpl.
  - rewrite filter_true. symmetry. apply set_timers_same.
  - rewrite IH. destruct this. unfold clearTimeout, set_timers. simpl.
    rewrite filter_filter. f_equal.
    apply filter_ext. intro p. rewrite negb_orb. reflexivity.
Qed.

Lemma clear_timeouts_eq (this : t) :
  clear_timeouts this
  = set_timers this
      (filter (fun p => negb (existsb (Nat.eqb (fst p)) (activeTimeouts this)))
              (timers this)).
Proof. apply clear_timeouts_from. Qed.

Lemma filter_listed (l : list (nat * string)) :
  filter (fun p => negb (existsb (Nat.eqb (fst p)) (map fst l))) l = [].
Proof.
  assert (H : forall ids, (forall p, In p l -> In (fst p) ids) ->
            filter (fun p => negb (existsb (Nat.eqb (fst p)) ids)) l = []).
  { induction l as [|x l IH]; intros ids Hin; simpl; [reflexivity|].
    assert (E : existsb (Nat.eqb (fst x)) ids = true).
    { apply existsb_exists. exists (fst x). split.
      - apply Hin. left; reflexivity.
      - apply Nat.eqb_refl. }
    rewrite E. simpl. apply IH. intros p Hp. apply Hin. right; exact Hp. }
  apply H. intros p Hp. apply in_map, Hp.
Qed.

(** With the timers tracked, [clear_timeouts] leaves none pending. *)
Lemma clear_timeouts_none (this : t) :
  map fst (timers this) = activeTimeouts this ->
  timers (clear_timeouts this) = [].
Proof.
  intros Hm. rewrite clear_timeouts_eq. simpl. rewrite <- Hm.
  apply filter_listed.
Qed.

Lemma length_zero_nil {B : Type} (l : list B) :
  (List.length l =? 0)%nat = true -> l = [].
Proof. destruct l; [reflexivity | discriminate]. Qed.

(** [run], entered while simulating with no timer pending, leaves the
    timers tracked. *)
Lemma run_tracked (this : t) :
  timers this = [] -> activeTimeouts this = [] -> isSimulating this = true ->
  timers_tracked (run this).
Proof.
  intros Ht Ha Hs. unfold run.
  destruct (List.length (eventQueue this) =? 0)%nat eqn:El.
  - apply length_zero_nil in El. apply tracked_idle; simpl; assumption.
  - destruct (Queue.pop (eventQueue this)) as [[ev rest]|].
    + unfold timers_tracked. simpl. rewrite Ht, Ha, Hs. simpl.
      repeat split; auto; discriminate.
    + unfold timers_tracked. rewrite Ht, Ha, Hs. simpl.
      repeat split; auto; discriminate.
Qed.

Lemma run_triggers (this : t) : triggers (run this) = triggers this.
Proof.
  unfold run. destruct (_ =? _)%nat; [reflexivity|].
  destruct (Queue.pop _) as [[ev rest]|]; reflexivity.
Qed.

Lemma addTrigger_fields (config : Config) (this : t) :
  let after := snd (addTrigger config this) in
  timers after = timers this /\ activeTimeouts after = activeTimeouts this
  /\ isSimulating after = isSimulating this
  /\ eventQueue after = eventQueue this /\ time after = time this.
Proof.
  unfold addTrigger. destruct (c_id config) as [key|]; simpl; auto.
  destruct (negb (nonempty key) || Obj.get_truthy key (triggers this));
    simpl; auto.
Qed.

Lemma add_all_fields (items : list value) (this : t) :
  let after := snd (add_all items this) in
  timers after = timers this /\ activeTimeouts after = activeTimeouts this
  /\ isSimulating after = isSimulating this
  /\ eventQueue after = eventQueue this /\ time after = time this.
Proof.
  revert this. induction items as [|v items IH]; intro this; simpl; auto.
  destruct (Layout.config_of_value v) as [config|]; simpl; auto.
  destruct (IH (snd (addTrigger config this))) as (E1 & E2 & E3 & E4 & E5).
  destruct (addTrigger_fields config this) as (F1 & F2 & F3 & F4 & F5).
  simpl in *. rewrite E1, E2, E3, E4, E5. auto.
Qed.

Lemma clear_tracked (this : t) : timers_tracked this -> timers_tracked (clear this).
Proof.
  intro H. apply tracked_idle; try reflexivity.
  unfold clear. simpl. apply clear_timeouts_none. simpl. apply H.
Qed.

Lemma resetSimulation_tracked (this : t) :
  timers_tracked this -> timers_tracked (resetSimulation this).
Proof.
  intro H. apply tracked_idle; try reflexivity.
  unfold resetSimulation. simpl. apply clear_timeouts_none. simpl. apply H.
Qed.

Ltac same_engine_fields H :=
  apply (tracked_ext _ _) with (5 := H); reflexivity.

Lemma deleteTrigger_tracked (key : string) (this : t) :
  timers_tracked this -> timers_tracked (deleteTrigger key this).
Proof.
  intro H. unfold deleteTrigger.
  destruct (Obj.own key (triggers this)); [same_engine_fields H | exact H].
Qed.

Lemma updateTriggerProperty_tracked (e : edit) (this : t) :
  timers_tracked this -> timers_tracked (updateTriggerProperty e this).
Proof.
  intro H. unfold updateTriggerProperty.
  destruct (selectedTrigger this) as [key|]; [|exact H].
  destruct (Obj.own key (triggers this)); [same_engine_fields H | exact H].
Qed.

Lemma toggleState_tracked (key : string) (this : t) :
  timers_tracked this -> timers_tracked (toggleState key this).
Proof.
  intro H. unfold toggleState.
  destruct (Obj.own key (triggers this)); [|exact H].
  destruct (isSimulating this); [exact H | same_engine_fields H].
Qed.

Lemma addTrigger_tracked (config : Config) (this : t) :
  timers_tracked this -> timers_tracked (snd (addTrigger config this)).
Proof.
  intro H. destruct (addTrigger_fields config this) as (E1 & E2 & E3 & E4 & _).
  exact (tracked_ext _ _ E1 E2 E3 E4 H).
Qed.

Lemma pulseChannel_tracked (channel : string) (time : Z) (this : t) :
  timers_tracked this -> timers_tracked (pulseChannel channel time this).
Proof.
  intro H. unfold pulseChannel.
  destruct (isSimulating this) eqn:Hs; [same_engine_fields H|].
  destruct (negb (nonempty channel)); [same_engine_fields H|].
  destruct H as (Hm & _ & Hi). destruct (Hi Hs) as [Ht _].
  apply run_tracked; simpl; auto. rewrite <- Hm, Ht. reflexivity.
Qed.

Lemma manuallyTrigger_tracked (key : string) (this : t) :
  timers_tracked this -> timers_tracked (manuallyTrigger key this).
Proof.
  intro H. unfold manuallyTrigger.
  destruct (isSimulating this) eqn:Hs; [same_engine_fields H|].
  destruct (Obj.own key (triggers this)) as [trigger|].
  - destruct (negb (Trigger.state trigger)); [same_engine_fields H|].
    destruct H as (Hm & _ & Hi). destruct (Hi Hs) as [Ht _].
    assert (Ha : activeTimeouts this = []) by (rewrite <- Hm, Ht; reflexivity).
    apply run_tracked;
      destruct (Trigger.whenTriggered trigger) as [w|];
      try destruct (nonempty w); simpl; auto.
  - destruct (Obj.inherited key); [same_engine_fields H | exact H].
Qed.

Lemma broadcast_split channel currentTime ts queue log h :
  exists ts' queue' log' h',
    broadcast channel currentTime ts queue log h = (ts', queue', log', h').
Proof.
  destruct (broadcast channel currentTime ts queue log h) as [[[a b] c] d].
  exists a, b, c, d. reflexivity.
Qed.

Lemma deliver_tracked (channel : string) (this : t) :
  timers this = [] -> tl (activeTimeouts this) = [] ->
  isSimulating this = true ->
  timers_tracked (deliver channel this).
Proof.
  intros Ht Ha Hs. unfold deliver.
  destruct (broadcast_split channel
              (time (set_activeTimeouts this (tl (activeTimeouts this))))
              (triggers (set_activeTimeouts this (tl (activeTimeouts this))))
              (eventQueue (set_activeTimeouts this (tl (activeTimeouts this))))
              (logOutput (set_activeTimeouts this (tl (activeTimeouts this))))
              false)
    as (ts & q & lg & h & E).
  rewrite E. destruct (negb h); apply run_tracked; simpl; assumption.
Qed.

Lemma timer_fires_tracked (timeoutId : nat) (this : t) :
  timers_tracked this -> timers_tracked (timer_fires timeoutId this).
Proof.
  intro H. unfold timer_fires.
  destruct (find (fun p => (fst p =? timeoutId)%nat) (timers this))
    as [[i channel]|] eqn:Ef; [|exact H].
  destruct H as (Hm & Hl & Hi).
  destruct (timers this) as [|[j c] [|x rest]] eqn:Et;
    [discriminate | | simpl in Hl; lia].
  simpl in Ef. destruct (j =? timeoutId)%nat eqn:Ej; [|discriminate].
  inversion Ef; subst i channel.
  apply deliver_tracked; simpl.
  - rewrite Et. simpl. rewrite Ej. reflexivity.
  - rewrite <- Hm. reflexivity.
  - destruct (isSimulating this); [reflexivity|].
    destruct (Hi eq_refl) as [Hn _]. discriminate.
Qed.

Lemma load_failed_tracked (this : t) :
  timers_tracked this -> timers_tracked (load_failed this).
Proof. intro H. same_engine_fields H. Qed.

Lemma add_all_tracked (items : list value) (this : t) :
  timers_tracked this -> timers_tracked (snd (add_all items this)).
Proof.
  intro H. destruct (add_all_fields items this) as (E1 & E2 & E3 & E4 & _).
  exact (tracked_ext _ _ E1 E2 E3 E4 H).
Qed.

Lemma loadLayout_tracked JSON_parse (text : string) (this : t) :
  timers_tracked this ->
  timers_tracked (loadLayout_onload JSON_parse text this).
Proof.
  intro H. unfold loadLayout_onload.
  destruct (JSON_parse text) as [layoutData|];
    [|apply load_failed_tracked, H].
  destruct (negb (isArray layoutData)); [apply load_failed_tracked, H|].
  destruct layoutData; try (apply clear_tracked, H).
  pose proof (add_all_tracked items (clear this) (clear_tracked _ H)) as Ha.
  destruct (add_all items (clear this)) as [[|] after]; simpl in Ha.
  - same_engine_fields Ha.
  - apply load_failed_tracked, Ha.
Qed.

Lemma step_tracked JSON_parse (a : action) (this : t) :
  timers_tracked this -> timers_tracked (step JSON_parse a this).
Proof.
  intro H. destruct a as [config|[key|]| |e|key|key|channel time| | |text|i];
    simpl.
  - apply addTrigger_tracked, H.
  - destruct (Obj.has_own key (triggers this)); [same_engine_fields H | exact H].
  - same_engine_fields H.
  - destruct (selectedTrigger this); [apply deleteTrigger_tracked, H | exact H].
  - apply updateTriggerProperty_tracked, H.
  - apply toggleState_tracked, H.
  - apply manuallyTrigger_tracked, H.
  - apply pulseChannel_tracked, H.
  - apply resetSimulation_tracked, H.
  - same_engine_fields H.
  - apply loadLayout_tracked, H.
  - apply timer_fires_tracked, H.
Qed.

Lemma reachable_tracked JSON_parse (this : t) :
  reachable JSON_parse this -> timers_tracked this.
Proof.
  induction 1 as [|a this _ IH].
  - apply tracked_idle; reflexivity.
  - apply step_tracked, IH.
Qed.

(** *** Registered triggers keep parsed channel lists *)














End SimFacts.

(** ** The AND gate of the default example *)

Example and_gate_initial :
  Example.states (Example.session [])
  = [("T_A_MEM", true); ("T_B_MEM", true); ("T_CHAIN", false);
     ("T_RESULT", false)].
Proof. reflexivity. Qed.

Example and_gate_after_RESET :
  Example.states (Example.session Example.pulse_RESET)
  = [("T_A_MEM", false); ("T_B_MEM", false); ("T_CHAIN", false);
     ("T_RESULT", false)].
Proof. vm_compute. reflexivity. Qed.

Example and_gate_B_ON_schedules :
  let this :=
    Example.session
      (Example.pulse_RESET ++ Example.pulse_A_ON ++ Example.pulse_B_ON) in
  Example.states this
  = [("T_A_MEM", true); ("T_B_MEM", true); ("T_CHAIN", true);
     ("T_RESULT", false)]
  /\ Simulator.time this = 2
  /\ Simulator.timers this = [(3%nat, "AND_SUCCESS")]
  /\ Simulator.isSimulating this = true.
Proof. vm_compute. repeat split; reflexivity. Qed.

Example and_gate_success :
  let this :=
    Example.session
      (Example.pulse_RESET ++ Example.pulse_A_ON ++ Example.pulse_B_ON
       ++ [Simulator.TimerFires 3]) in
  Example.states this
  = [("T_A_MEM", true); ("T_B_MEM", true); ("T_CHAIN", true);
     ("T_RESULT", true)]
  /\ Simulator.isSimulating this = false.
Proof. vm_compute. repeat split; reflexivity. Qed.

(** ** Reset, the run gate, loading *)

Lemma session_reachable (actions : list Simulator.action) :
  Simulator.reachable Example.parse (Example.session actions).
Proof.
  unfold Example.session.
  assert (H : forall this, Simulator.reachable Example.parse this ->
            Simulator.reachable Example.parse
              (fold_left (fun this a => Simulator.step Example.parse a this)
                         actions this)).
  { induction actions as [|a actions IH]; intros this Hr; simpl.
    - exact Hr.
    - apply IH. constructor. exact Hr. }
  apply H. repeat apply Simulator.reachable_step. apply Simulator.reachable_new.
Defined.



(** C5. While a run is in progress [pulseChannel] only writes one line to
    the log: the queue, the clock, the triggers, the pending timers and
    the run flag are as before, so nothing is kept for later. *)
Theorem pulseChannel_rejected_while_running
    (channel : string) (time : Z) (this : Simulator.t) :
  Simulator.isSimulating this = true ->
  let after := Simulator.pulseChannel channel time this in
  after = Simulator.logEvent LogCannotPulse this
  /\ Simulator.logOutput after = LogCannotPulse :: Simulator.logOutput this
  /\ Simulator.eventQueue after = Simulator.eventQueue this
  /\ Simulator.time after = Simulator.time this
  /\ Simulator.triggers after = Simulator.triggers this
  /\ Simulator.timers after = Simulator.timers this
  /\ Simulator.activeTimeouts after = Simulator.activeTimeouts this
  /\ Simulator.isSimulating after = true
  /\ Simulator.alerts after = Simulator.alerts this.
Proof.
  intros Hs after. subst after. unfold Simulator.pulseChannel.
  rewrite Hs. simpl. repeat split; auto.
Qed.

Lemma pulseChannel_rejected_while_running_witness :
  let this := Example.session [Simulator.DoPulse "RESET" 0] in
  let after := Simulator.pulseChannel "A_ON" 0 this in
  Simulator.isSimulating this = true
  /\ Simulator.eventQueue after = Simulator.eventQueue this
  /\ Simulator.timers after = Simulator.timers this
  /\ Simulator.logOutput after = LogCannotPulse :: Simulator.logOutput this.
Proof.
  intros this after.
  assert (Hs : Simulator.isSimulating this = true) by (lazy; reflexivity).
  destruct (pulseChannel_rejected_while_running "A_ON" 0 this Hs)
    as (_ & Hl & Hq & _ & _ & Ht & _).
  exact (conj Hs (conj Hq (conj Ht Hl))).
Defined.

(** C8. When the text of the file does not parse, or parses to something
    that is not an array, the load handler shows the format alert and
    changes nothing else: registry, queue, clock, run flag, selection,
    timers and log are as before. *)
Theorem loadLayout_rejects_malformed
    (JSON_parse : string -> option value) (text : string)
    (this : Simulator.t) :
  (JSON_parse text = None
   \/ exists v, JSON_parse text = Some v /\ isArray v = false) ->
  let after := Simulator.loadLayout_onload JSON_parse text this in
  Simulator.alerts after
  = Simulator.alerts this
    ++ ["Failed to load layout. The file may be corrupted or in the wrong format."]
  /\ Simulator.triggers after = Simulator.triggers this
  /\ Simulator.eventQueue after = Simulator.eventQueue this
  /\ Simulator.time after = Simulator.time this
  /\ Simulator.isSimulating after = Simulator.isSimulating this
  /\ Simulator.selectedTrigger after = Simulator.selectedTrigger this
  /\ Simulator.activeTimeouts after = Simulator.activeTimeouts this
  /\ Simulator.timers after = Simulator.timers this
  /\ Simulator.logOutput after = Simulator.logOutput this.
Proof.
  intros H after. subst after. unfold Simulator.loadLayout_onload.
  destruct H as [-> | [v [-> Hv]]]; [|rewrite Hv]; simpl;
    repeat split; reflexivity.
Qed.

Lemma loadLayout_rejects_malformed_witness :
  let this := Example.session Example.pulse_RESET in
  (let after := Simulator.loadLayout_onload Example.parse "{}" this in
   Simulator.triggers after = Simulator.triggers this
   /\ Simulator.alerts after
      = ["Failed to load layout. The file may be corrupted or in the wrong format."])
  /\ (let after := Simulator.loadLayout_onload Example.parse "[1," this in
      Simulator.triggers after = Simulator.triggers this
      /\ Simulator.eventQueue after = Simulator.eventQueue this).
Proof.
  intro this. split.
  - destruct (loadLayout_rejects_malformed Example.parse "{}" this)
      as (Ha & Ht & _).
    + right. exists (VObj []). split; reflexivity.
    + split; [exact Ht|]. rewrite Ha. lazy. reflexivity.
  - destruct (loadLayout_rejects_malformed Example.parse "[1," this)
      as (_ & Ht & Hq & _).
    + left. reflexivity.
    + exact (conj Ht Hq).
Defined.

(** ** The clock during a run *)

Module ClockFacts.
Import Simulator.

Lemma handlePulse_future (this : Trigger.t) channel queue currentTime log :
  0 <= Trigger.delay this ->
  Forall (fun e => currentTime <= Event.time e) queue ->
  let r := Trigger.handlePulse this channel queue currentTime log in
  Forall (fun e => currentTime <= Event.time e) (Trigger.eventQueue' r)
  /\ Trigger.delay (Trigger.this' r) = Trigger.delay this.
Proof.
  intros Hd Hq r. subst r.
  destruct (PulseFacts.handlePulse_cases this channel queue currentTime log)
    as (Et & _ & Eq).
  rewrite Et, Eq. split; [|reflexivity].
  match goal with
  | |- Forall _ (if ?c then _ else _) => destruct c; [|exact Hq]
  end.
  destruct (Trigger.whenTriggered this) as [w|]; [|exact Hq].
  destruct (nonempty w); [|exact Hq].
  apply Forall_app. split; [exact Hq|].
  repeat constructor. simpl. lia.
Qed.

Lemma broadcast_future channel currentTime ts :
  delays_nonneg ts ->
  forall queue log h,
    Forall (fun e => currentTime <= Event.time e) queue ->
    delays_nonneg
      (fst (fst (fst (broadcast channel currentTime ts queue log h))))
    /\ Forall (fun e => currentTime <= Event.time e)
         (snd (fst (fst (broadcast channel currentTime ts queue log h)))).
Proof.
  unfold delays_nonneg.
  induction 1 as [|[k trigger] ts Hd _ IH]; intros queue log h Hq; simpl.
  - split; [constructor | exact Hq].
  - destruct (handlePulse_future trigger channel queue currentTime log Hd Hq)
      as [Hq' Hd'].
    match goal with
    | |- context [broadcast channel currentTime ts ?q ?l ?b] =>
        specialize (IH q l b Hq');
        destruct (broadcast channel currentTime ts q l b) as [[[ts' q'] l'] h']
    end.
    simpl in *. destruct IH as [IH1 IH2]. split; [|exact IH2].
    constructor; [|exact IH1]. simpl. rewrite Hd'. exact Hd.
Qed.

Lemma sorted_head_least (ev : Event.t) (rest : Queue.t) :
  QueueRun.time_sorted (ev :: rest) ->
  Forall (fun e => Event.time ev <= Event.time e) rest.
Proof. unfold QueueRun.time_sorted. inversion 1; assumption. Qed.

(** [run] moves the clock to the least time in the queue. *)
Lemma run_future (this : t) :
  queue_in_future this ->
  queue_in_future (run this) /\ time this <= time (run this).
Proof.
  unfold queue_in_future, run. intro H.
  destruct (List.length (eventQueue this) =? 0)%nat; simpl;
    [split; [exact H | lia]|].
  unfold Queue.pop.
  pose proof (QueueFacts.sort_sorted (eventQueue this)) as Hs.
  pose proof (QueueFacts.sort_perm (eventQueue this)) as Hp.
  destruct (Queue.sort (eventQueue this)) as [|ev rest]; simpl;
    [split; [exact H | lia]|].
  split; [apply sorted_head_least, Hs|].
  rewrite Forall_forall in H. apply H.
  apply (Permutation_in _ (Permutation_sym Hp)). left; reflexivity.
Qed.

Lemma deliver_future (channel : string) (this : t) :
  delays_nonneg (triggers this) -> queue_in_future this ->
  delays_nonneg (triggers (deliver channel this))
  /\ queue_in_future (deliver channel this)
  /\ time this <= time (deliver channel this).
Proof.
  intros Hd Hq. unfold deliver. simpl.
  pose proof (broadcast_future channel (time this) (triggers this) Hd
                (eventQueue this) (logOutput this) false Hq) as Hb.
  revert Hb.
  destruct (broadcast channel (time this) (triggers this) (eventQueue this)
              (logOutput this) false) as [[[ts q] lg] h].
  simpl. intros [Hd' Hq'].
  destruct (negb h); rewrite SimFacts.run_triggers; simpl;
    (split; [exact Hd'|]);
    match goal with
    | |- queue_in_future (run ?s) /\ _ => exact (run_future s Hq')
    end.
Qed.

Lemma timer_fires_future (timeoutId : nat) (this : t) :
  delays_nonneg (triggers this) -> queue_in_future this ->
  delays_nonneg (triggers (timer_fires timeoutId this))
  /\ queue_in_future (timer_fires timeoutId this)
  /\ time this <= time (timer_fires timeoutId this).
Proof.
  intros Hd Hq. unfold timer_fires.
  destruct (find _ (timers this)) as [[j channel]|].
  - apply (deliver_future channel (clearTimeout timeoutId this)); assumption.
  - repeat split; auto. lia.
Qed.

(** From a state whose queue holds nothing earlier than the clock, the
    clock only moves forward as the deliveries go by. *)
Lemma clock_trace_sorted (n : nat) :
  forall this,
    delays_nonneg (triggers this) -> queue_in_future this ->
    StronglySorted Z.le (time this :: clock_trace n this).
Proof.
  induction n as [|n IH]; intros this Hd Hq; simpl.
  - repeat constructor.
  - destruct (timers this) as [|[timeoutId c] rest]; [repeat constructor|].
    destruct (timer_fires_future timeoutId this Hd Hq) as (Hd' & Hq' & Hle).
    specialize (IH _ Hd' Hq').
    constructor; [exact IH|].
    constructor; [exact Hle|].
    inversion IH as [|? ? _ Hall]; subst.
    eapply Forall_impl; [|exact Hall]. simpl. intros; lia.
Qed.

Lemma pulseChannel_future (channel : string) (t0 : Z) (this : t) :
  eventQueue this = [] -> time this <= t0 ->
  queue_in_future (pulseChannel channel t0 this)
  /\ time this <= time (pulseChannel channel t0 this)
  /\ triggers (pulseChannel channel t0 this) = triggers this.
Proof.
  intros He Ht. unfold pulseChannel.
  assert (H0 : queue_in_future this)
    by (unfold queue_in_future; rewrite He; constructor).
  destruct (isSimulating this); [repeat split; [exact H0 | simpl; lia]|].
  destruct (negb (nonempty channel)); [repeat split; [exact H0 | simpl; lia]|].
  rewrite SimFacts.run_triggers. simpl.
  match goal with
  | |- queue_in_future (run ?s) /\ _ =>
      assert (Hq : queue_in_future s)
        by (unfold queue_in_future; simpl; rewrite He;
            repeat constructor; exact Ht);
      destruct (run_future s Hq) as [H1 H2]
  end.
  repeat split; [exact H1 | exact H2].
Qed.

Lemma pulseChannel_clock (channel : string) (t0 : Z) (this : t) :
  isSimulating this = false -> eventQueue this = [] ->
  nonempty channel = true ->
  time (pulseChannel channel t0 this) = t0.
Proof.
  intros Hs He Hc. unfold pulseChannel. rewrite Hs, Hc. simpl.
  unfold run. simpl. rewrite He. reflexivity.
Qed.

End ClockFacts.

(** C6. A run started by [pulseChannel] from an idle state, with every
    delay non-negative and the pulse not earlier than the clock: the
    clock does not go back when the pulse is taken (it goes to the pulse's
    time), and the clock values after each of the following deliveries
    form a non-decreasing sequence. *)
Theorem clock_never_decreases
    (JSON_parse : string -> option value) (this : Simulator.t)
    (channel : string) (time : Z) (n : nat) :
  Simulator.reachable JSON_parse this ->
  Simulator.isSimulating this = false ->
  Simulator.delays_nonneg (Simulator.triggers this) ->
  Simulator.time this <= time ->
  let started := Simulator.pulseChannel channel time this in
  Simulator.time this <= Simulator.time started
  /\ (nonempty channel = true -> Simulator.time started = time)
  /\ StronglySorted Z.le
       (Simulator.time started :: Simulator.clock_trace n started).
Proof.
  intros Hr Hs Hd Ht started. subst started.
  destruct (SimFacts.reachable_tracked JSON_parse this Hr) as (_ & _ & Hi).
  destruct (Hi Hs) as [_ He].
  destruct (ClockFacts.pulseChannel_future channel time this He Ht)
    as (Hq & Hle & Etr).
  split; [exact Hle|]. split.
  - intro Hc. apply ClockFacts.pulseChannel_clock; assumption.
  - apply ClockFacts.clock_trace_sorted; [rewrite Etr; exact Hd | exact Hq].
Qed.

Lemma clock_never_decreases_witness :
  let this := Example.session (Example.pulse_RESET ++ Example.pulse_A_ON) in
  let started := Simulator.pulseChannel "B_ON" 0 this in
  Simulator.time started :: Simulator.clock_trace 5 started = [0; 2; 2]
  /\ StronglySorted Z.le
       (Simulator.time started :: Simulator.clock_trace 5 started).
Proof.
  intros this started. split; [lazy; reflexivity|].
  apply (clock_never_decreases Example.parse this "B_ON" 0 5).
  - apply session_reachable.
  - lazy. reflexivity.
  - lazy. repeat constructor; discriminate.
  - lazy. discriminate.
Defined.

(** ** The registry: [addTrigger] *)

Lemma addTrigger_rejects (config : Config) (this : Simulator.t) :
  (c_id config = None \/ c_id config = Some ""
   \/ exists key, c_id config = Some key
                  /\ Obj.has_own key (Simulator.triggers this) = true) ->
  Simulator.addTrigger config this
  = (None, Simulator.alert "Invalid or duplicate trigger ID." this).
Proof.
  unfold Simulator.addTrigger.
  intros [-> | [-> | [key [-> Ho]]]]; try reflexivity.
  unfold Obj.get_truthy. rewrite Ho, orb_true_r. reflexivity.
Qed.


(** C9, at an id the code turns down although it is not empty and no
    trigger is registered under it: on the empty registry
    [this.triggers['constructor']] reads the inherited constructor, which
    is truthy, so [addTrigger] alerts, returns null and registers
    nothing. *)
Theorem addTrigger_inherited_name_rejected :
  let config :=
    mkConfig (Some "constructor") None VUndefined VUndefined VUndefined
             None None 0 0 in
  nonempty "constructor" = true
  /\ Obj.has_own "constructor" (Simulator.triggers Simulator.new) = false
  /\ fst (Simulator.addTrigger config Simulator.new) = None
  /\ Simulator.triggers (snd (Simulator.addTrigger config Simulator.new))
     = Obj.empty
  /\ Simulator.alerts (snd (Simulator.addTrigger config Simulator.new))
     = ["Invalid or duplicate trigger ID."].
Proof. repeat split. Qed.

(** ** Saving and restoring a trigger *)



(** C10, at a registered trigger for which the round trip changes a
    field: after the "When Triggered" input of T_CHAIN has been emptied,
    the registered trigger holds the empty string, its serialized form
    carries the empty string, and the trigger constructed from that form
    holds null. *)
Theorem roundtrip_blank_whenTriggered :
  let this :=
    Example.session
      [Simulator.DoSelect (Some "T_CHAIN");
       Simulator.DoUpdate (EditWhenTriggered "")] in
  exists trigger,
    Obj.own "T_CHAIN" (Simulator.triggers this) = Some trigger
    /\ Trigger.whenTriggered trigger = Some ""
    /\ c_whenTriggered (Trigger.serialize trigger) = Some ""
    /\ Trigger.whenTriggered (Trigger.new (Trigger.serialize trigger)) = None.
Proof.
  eexists. split; [lazy; reflexivity|]. repeat split.
Qed.

(** ** The registry: keys, order, deletion *)

Module OrderFacts.
Import Obj.

Lemma goes_before_cases (k k' : string) :
  goes_before k k' = true <->
  exists n, array_index k = Some n
            /\ (array_index k' = None
                \/ exists n', array_index k' = Some n' /\ (n < n')%N).
Proof.
  unfold goes_before.
  destruct (array_index k) as [n|]; destruct (array_index k') as [n'|].
  - rewrite N.ltb_lt. split.
    + intro H. exists n. split; [reflexivity|]. right. exists n'. auto.
    + intros (m & E & [D | (m' & E' & Hlt)]); [discriminate|].
      inversion E; inversion E'; subst. exact Hlt.
  - split; [|reflexivity]. intros _. exists n. auto.
  - split; [discriminate|]. intros (m & E & _). discriminate.
  - split; [discriminate|]. intros (m & E & _). discriminate.
Qed.


(** If [k] goes before [p], whatever does not go before [p] does not go
    before [k] either. *)
Lemma goes_before_behind (k p q : string) :
  goes_before k p = true -> goes_before q p = false ->
  goes_before q k = false.
Proof.
  unfold goes_before.
  destruct (array_index k) as [n|]; [|discriminate].
  destruct (array_index q) as [nq|]; [|reflexivity].
  destruct (array_index p) as [np|]; [|discriminate].
  rewrite N.ltb_lt, !N.ltb_ge. lia.
Qed.

Lemma goes_before_self_behind (k p : string) :
  goes_before k p = true -> goes_before p k = false.
Proof.
  unfold goes_before.
  destruct (array_index k) as [n|]; [|discriminate].
  destruct (array_index p) as [np|]; [|reflexivity].
  rewrite N.ltb_lt, N.ltb_ge. lia.
Qed.

Section Facts.
Context {A : Type}.
Implicit Types (o : Obj.t A) (k : string) (v : A).

Lemma has_own_In k o : has_own k o = true <-> In k (keys o).
Proof.
  unfold has_own, keys. induction o as [|[k' v'] o IH]; simpl.
  - split; [discriminate | contradiction].
  - destruct (k =? k')%string eqn:E.
    + apply String.eqb_eq in E. subst. split; auto.
    + apply String.eqb_neq in E. rewrite IH. split; [auto|].
      intros [H | H]; [congruence | exact H].
Qed.

Lemma has_own_false k o : has_own k o = false <-> ~ In k (keys o).
Proof.
  rewrite <- has_own_In. destruct (has_own k o); split; intro H;
    try discriminate; try reflexivity.
  exfalso; apply H; reflexivity.
Qed.

Lemma own_None k o : own k o = None <-> ~ In k (keys o).
Proof.
  rewrite <- has_own_false. unfold has_own.
  destruct (own k o); split; intro H; try discriminate; reflexivity.
Qed.

Lemma keys_replace k v o : keys (replace k v o) = keys o.
Proof.
  unfold keys. induction o as [|[k' v'] o IH]; simpl; [reflexivity|].
  destruct (k =? k')%string; simpl; [|rewrite IH]; reflexivity.
Qed.

Lemma keys_insert_new k v o :
  Permutation (k :: keys o) (keys (insert_new k v o)).
Proof.
  unfold keys. induction o as [|[k' v'] o IH]; simpl; [reflexivity|].
  destruct (goes_before k k'); simpl; [reflexivity|].
  rewrite perm_swap. constructor. exact IH.
Qed.


Lemma canonical_insert_new k v o :
  canonical o -> canonical (insert_new k v o).
Proof.
  unfold canonical, keys.
  induction o as [|[k' v'] o IH]; simpl; intro H.
  - repeat constructor.
  - inversion H as [|? ? Hs Hall]; subst.
    destruct (goes_before k k') eqn:E; simpl.
    + constructor; [exact H|].
      constructor; [apply goes_before_self_behind, E|].
      eapply Forall_impl; [|exact Hall]. simpl.
      intros q Hq. exact (goes_before_behind k k' q E Hq).
    + constructor; [apply IH, Hs|].
      apply (Permutation_Forall (keys_insert_new k v o)).
      constructor; [exact E | exact Hall].
Qed.

Lemma canonical_replace k v o : canonical o -> canonical (replace k v o).
Proof. unfold canonical. rewrite keys_replace. exact (fun H => H). Qed.

Lemma set_fresh k v o :
  has_own k o = false -> set k v o = insert_new k v o.
Proof. unfold set. intros ->. reflexivity. Qed.

Lemma NoDup_insert_new k v o :
  ~ In k (keys o) -> NoDup (keys o) -> NoDup (keys (insert_new k v o)).
Proof.
  intros Hn Hd. apply (Permutation_NoDup (keys_insert_new k v o)).
  constructor; assumption.
Qed.

Lemma In_keys_delete k k' o : In k' (keys (delete k o)) -> In k' (keys o).
Proof.
  unfold keys. induction o as [|[k0 v0] o IH]; simpl; [contradiction|].
  destruct (k =? k0)%string; simpl; [auto|].
  intros [H | H]; [left; exact H | right; apply IH, H].
Qed.

Lemma NoDup_delete k o : NoDup (keys o) -> NoDup (keys (delete k o)).
Proof.
  unfold keys. induction o as [|[k0 v0] o IH]; simpl; intro H; [constructor|].
  inversion H as [|? ? Hn Hd]; subst.
  destruct (k =? k0)%string; simpl; [exact Hd|].
  constructor; [|apply IH, Hd].
  intro Hin. apply Hn. exact (In_keys_delete k k0 o Hin).
Qed.

Lemma canonical_delete k o : canonical o -> canonical (delete k o).
Proof.
  unfold canonical, keys.
  induction o as [|[k0 v0] o IH]; simpl; intro H; [constructor|].
  inversion H as [|? ? Hs Hall]; subst.
  destruct (k =? k0)%string; simpl; [exact Hs|].
  constructor; [apply IH, Hs|].
  rewrite Forall_forall in *. intros q Hq. apply Hall.
  exact (In_keys_delete k q o Hq).
Qed.

(** With distinct keys, deleting a key leaves no entry under it. *)
Lemma own_delete_same k o : NoDup (keys o) -> own k (delete k o) = None.
Proof.
  unfold keys. induction o as [|[k0 v0] o IH]; simpl; intro H; [reflexivity|].
  inversion H as [|? ? Hn Hd]; subst.
  destruct (k =? k0)%string eqn:E; simpl.
  - apply String.eqb_eq in E. subst. apply own_None. exact Hn.
  - rewrite E. apply IH, Hd.
Qed.

Lemma own_delete_other k k' o : k' <> k -> own k' (delete k o) = own k' o.
Proof.
  intro Hne. induction o as [|[k0 v0] o IH]; simpl; [reflexivity|].
  destruct (k =? k0)%string eqn:E; simpl.
  - apply String.eqb_eq in E. subst k0.
    apply String.eqb_neq in Hne. rewrite Hne. reflexivity.
  - rewrite IH. reflexivity.
Qed.

(** Replacing the value under [k] keeps a property of the entries that
    the new value has under [k]. *)
Lemma Forall_replace_key (P : string * A -> Prop) k v o :
  P (k, v) -> Forall P o -> Forall P (replace k v o).
Proof.
  intros Hv. induction 1 as [|[k' v'] o Hp Ho IH]; simpl; [constructor|].
  destruct (k =? k')%string eqn:E; constructor; auto.
  apply String.eqb_eq in E. subst. exact Hv.
Qed.

Lemma own_Forall (P : string * A -> Prop) k v o :
  Forall P o -> own k o = Some v -> P (k, v).
Proof.
  intros H Ho. rewrite Forall_forall in H.
  exact (H _ (ObjFacts.own_In _ _ _ Ho)).
Qed.

Lemma keys_map_values (f : A -> A) o :
  keys (map (fun p => (fst p, f (snd p))) o) = keys o.
Proof. apply ObjFacts.keys_map. Qed.

End Facts.

End OrderFacts.

(** ** The registry stays well formed *)

Module RegistryFacts.
Import Simulator.

Lemma wf_same_keys (this after : t) :
  Obj.keys (triggers after) = Obj.keys (triggers this) ->
  Forall entry_ok (triggers after) ->
  selectedTrigger after = selectedTrigger this ->
  registry_wf this -> registry_wf after.
Proof.
  unfold registry_wf, Obj.canonical. intros Ek Hf Es (Hd & _ & Hc & Hs).
  rewrite Ek, Es. auto.
Qed.

Lemma wf_ext (this after : t) :
  triggers after = triggers this ->
  selectedTrigger after = selectedTrigger this ->
  registry_wf this -> registry_wf after.
Proof.
  unfold registry_wf. intros -> ->. exact (fun H => H).
Qed.

Lemma run_selectedTrigger (this : t) :
  selectedTrigger (run this) = selectedTrigger this.
Proof.
  unfold run. destruct (_ =? _)%nat; [reflexivity|].
  destruct (Queue.pop _) as [[ev rest]|]; reflexivity.
Qed.

Lemma run_wf (this : t) : registry_wf this -> registry_wf (run this).
Proof. apply wf_ext; [apply SimFacts.run_triggers | apply run_selectedTrigger]. Qed.

Lemma entry_ok_set_state k (trigger : Trigger.t) (b : bool) :
  entry_ok (k, trigger) -> entry_ok (k, Trigger.set_state trigger b).
Proof. exact (fun H => H). Qed.

Lemma entry_ok_apply_edit k (e : edit) (trigger : Trigger.t) :
  entry_ok (k, trigger) -> entry_ok (k, apply_edit e trigger).
Proof. unfold entry_ok. destruct e; exact (fun H => H). Qed.

Lemma broadcast_keys channel currentTime ts :
  forall queue log h,
    Obj.keys (fst (fst (fst (broadcast channel currentTime ts queue log h))))
    = Obj.keys ts.
Proof.
  induction ts as [|[k trigger] ts IH]; intros queue log h; simpl.
  - reflexivity.
  - match goal with
    | |- context [broadcast channel currentTime ts ?q ?l ?b] =>
        specialize (IH q l b);
        destruct (broadcast channel currentTime ts q l b) as [[[ts' q'] l'] h']
    end.
    simpl in *. rewrite IH. reflexivity.
Qed.

Lemma broadcast_entry_ok channel currentTime ts :
  Forall entry_ok ts ->
  forall queue log h,
    Forall entry_ok
      (fst (fst (fst (broadcast channel currentTime ts queue log h)))).
Proof.
  induction 1 as [|[k trigger] ts Hp _ IH]; intros queue log h; simpl.
  - constructor.
  - match goal with
    | |- context [broadcast channel currentTime ts ?q ?l ?b] =>
        specialize (IH q l b);
        destruct (broadcast channel currentTime ts q l b) as [[[ts' q'] l'] h']
    end.
    simpl in *. constructor; [|exact IH].
    rewrite PulseFacts.handlePulse_this. exact Hp.
Qed.

Lemma addTrigger_wf (config : Config) (this : t) :
  registry_wf this -> registry_wf (snd (addTrigger config this)).
Proof.
  intro H. unfold addTrigger. destruct (c_id config) as [key|] eqn:Eid;
    [|exact H].
  destruct (nonempty key) eqn:En; [|exact H]. simpl.
  unfold Obj.get_truthy.
  destruct (Obj.has_own key (triggers this)) eqn:Eo; [exact H|].
  destruct (Obj.inherited key) eqn:Ei; [exact H|]. simpl.
  destruct H as (Hd & Hf & Hc & Hs).
  unfold registry_wf. simpl. rewrite (OrderFacts.set_fresh _ _ _ Eo).
  repeat split.
  - apply OrderFacts.NoDup_insert_new; [|exact Hd].
    apply OrderFacts.has_own_false, Eo.
  - apply ObjFacts.Forall_insert_new; [|exact Hf].
    unfold entry_ok. simpl. auto.
  - apply OrderFacts.canonical_insert_new, Hc.
  - intros k Hk.
    apply (Permutation_in _ (OrderFacts.keys_insert_new key _ _)).
    right. apply Hs, Hk.
Qed.

Lemma add_all_wf (items : list value) (this : t) :
  registry_wf this -> registry_wf (snd (add_all items this)).
Proof.
  revert this. induction items as [|v items IH]; intros this H; simpl; auto.
  destruct (Layout.config_of_value v) as [config|]; simpl; auto.
  apply IH, addTrigger_wf, H.
Qed.

Lemma clear_wf (this : t) : registry_wf (clear this).
Proof.
  unfold registry_wf. simpl. repeat split; try constructor. discriminate.
Qed.

Lemma deleteTrigger_wf (key : string) (this : t) :
  registry_wf this -> registry_wf (deleteTrigger key this).
Proof.
  intro H. unfold deleteTrigger.
  destruct (Obj.own key (triggers this)); [|exact H].
  destruct H as (Hd & Hf & Hc & _). unfold registry_wf. simpl.
  repeat split.
  - apply OrderFacts.NoDup_delete, Hd.
  - apply ObjFacts.Forall_delete, Hf.
  - apply OrderFacts.canonical_delete, Hc.
  - discriminate.
Qed.

Lemma replace_wf (key : string) (trigger : Trigger.t) (this after : t) :
  triggers after = Obj.replace key trigger (triggers this) ->
  selectedTrigger after = selectedTrigger this ->
  entry_ok (key, trigger) ->
  registry_wf this -> registry_wf after.
Proof.
  intros Et Es Hk H. apply (wf_same_keys this); auto.
  - rewrite Et. apply OrderFacts.keys_replace.
  - rewrite Et. apply OrderFacts.Forall_replace_key; [exact Hk | apply H].
Qed.

Lemma deliver_wf (channel : string) (this : t) :
  registry_wf this -> registry_wf (deliver channel this).
Proof.
  intro H. unfold deliver. simpl.
  pose proof (broadcast_keys channel (time this) (triggers this)
                (eventQueue this) (logOutput this) false) as Hk.
  pose proof (broadcast_entry_ok channel (time this) (triggers this)
                (proj1 (proj2 H)) (eventQueue this) (logOutput this) false)
    as Hf.
  revert Hk Hf.
  destruct (broadcast channel (time this) (triggers this) (eventQueue this)
              (logOutput this) false) as [[[ts q] lg] h].
  simpl. intros Hk Hf.
  destruct (negb h); apply run_wf;
    apply (wf_same_keys this); simpl; auto.
Qed.

Lemma step_wf JSON_parse (a : action) (this : t) :
  registry_wf this -> registry_wf (step JSON_parse a this).
Proof.
  intro H. destruct a as [config|[key|]| |e|key|key|channel time| | |text|i];
    simpl.
  - apply addTrigger_wf, H.
  - destruct (Obj.has_own key (triggers this)) eqn:Eo; [|exact H].
    destruct H as (Hd & Hf & Hc & _). unfold registry_wf. simpl.
    repeat split; auto. intros k Ek. inversion Ek; subst.
    apply OrderFacts.has_own_In, Eo.
  - destruct H as (Hd & Hf & Hc & _). unfold registry_wf. simpl.
    repeat split; auto. discriminate.
  - destruct (selectedTrigger this); [apply deleteTrigger_wf, H | exact H].
  - unfold updateTriggerProperty.
    destruct (selectedTrigger this) as [key|]; [|exact H].
    destruct (Obj.own key (triggers this)) as [selected|] eqn:Eo; [|exact H].
    apply (replace_wf key (apply_edit e selected) this); try reflexivity;
      [|exact H].
    apply entry_ok_apply_edit.
    exact (OrderFacts.own_Forall _ _ _ _ (proj1 (proj2 H)) Eo).
  - unfold toggleState.
    destruct (Obj.own key (triggers this)) as [trigger|] eqn:Eo; [|exact H].
    destruct (isSimulating this); [exact H|].
    apply (replace_wf key (Trigger.toggle trigger) this); try reflexivity;
      [|exact H].
    exact (OrderFacts.own_Forall _ _ _ _ (proj1 (proj2 H)) Eo).
  - unfold manuallyTrigger. destruct (isSimulating this); [exact H|].
    destruct (Obj.own key (triggers this)) as [trigger|].
    + destruct (negb (Trigger.state trigger)); [exact H|].
      apply run_wf.
      destruct (Trigger.whenTriggered trigger) as [w|];
        try destruct (nonempty w); exact H.
    + destruct (Obj.inherited key); exact H.
  - unfold pulseChannel. destruct (isSimulating this); [exact H|].
    destruct (negb (nonempty channel)); [exact H|].
    apply run_wf. exact H.
  - refine (wf_same_keys this _ _ _ _ H);
      unfold resetSimulation; simpl; rewrite SimFacts.clear_timeouts_eq;
      simpl.
    + apply ObjFacts.keys_map.
    + rewrite Forall_map. exact (proj1 (proj2 H)).
    + reflexivity.
  - exact H.
  - unfold loadLayout_onload.
    destruct (JSON_parse text) as [layoutData|]; [|exact H].
    destruct (negb (isArray layoutData)); [exact H|].
    destruct layoutData; try apply clear_wf.
    pose proof (add_all_wf items (clear this) (clear_wf this)) as Ha.
    destruct (add_all items (clear this)) as [[|] after]; exact Ha.
  - unfold timer_fires.
    destruct (find _ (timers this)) as [[j channel]|]; [|exact H].
    apply deliver_wf. exact H.
Qed.

Lemma reachable_wf JSON_parse (this : t) :
  reachable JSON_parse this -> registry_wf this.
Proof.
  induction 1 as [|a this _ IH].
  - unfold registry_wf. simpl. repeat split; try constructor. discriminate.
  - apply step_wf, IH.
Qed.

End RegistryFacts.

(** ** The registry: what holds of it and of its operations *)







(** X5. In a reachable state [deleteTrigger] removes exactly the entry
    under the given id and clears the selection; the other entries, the
    queue, the clock, the run flag and the pending timers are untouched,
    also while a run is in progress.  For an id that is not registered
    the state is left as it is. *)
Theorem deleteTrigger_removes
    (JSON_parse : string -> option value) (key : string)
    (this : Simulator.t) :
  Simulator.reachable JSON_parse this ->
  let after := Simulator.deleteTrigger key this in
  Obj.own key (Simulator.triggers after) = None
  /\ (forall k, k <> key ->
        Obj.own k (Simulator.triggers after)
        = Obj.own k (Simulator.triggers this))
  /\ (Obj.own key (Simulator.triggers this) <> None ->
      Simulator.selectedTrigger after = None)
  /\ (Obj.own key (Simulator.triggers this) = None -> after = this)
  /\ Simulator.eventQueue after = Simulator.eventQueue this
  /\ Simulator.time after = Simulator.time this
  /\ Simulator.isSimulating after = Simulator.isSimulating this
  /\ Simulator.timers after = Simulator.timers this.
Proof.
  intros Hr after. subst after.
  destruct (RegistryFacts.reachable_wf JSON_parse this Hr) as (Hd & _).
  unfold Simulator.deleteTrigger.
  destruct (Obj.own key (Simulator.triggers this)) as [trigger|] eqn:Eo;
    simpl.
  - repeat split; auto.
    + apply OrderFacts.own_delete_same, Hd.
    + intros k Hk. apply OrderFacts.own_delete_other, Hk.
    + discriminate.
  - repeat split; auto. congruence.
Qed.

Lemma deleteTrigger_removes_witness :
  let this := Example.session [Simulator.DoPulse "RESET" 0] in
  let after := Simulator.deleteTrigger "T_CHAIN" this in
  Obj.own "T_CHAIN" (Simulator.triggers after) = None
  /\ Simulator.timers after = Simulator.timers this.
Proof.
  intros this after.
  destruct (deleteTrigger_removes Example.parse "T_CHAIN" this
              (session_reachable _))
    as (H1 & _ & _ & _ & _ & _ & _ & H2).
  exact (conj H1 H2).
Defined.



(** ** One delivery step *)

Module DeliverFacts.
Import Simulator.

Lemma set_state_same (this : Trigger.t) :
  Trigger.set_state this (Trigger.state this) = this.
Proof. destruct this; reflexivity. Qed.

(** A trigger none of whose lists names the channel is left alone. *)
Lemma handlePulse_unmentioned (this : Trigger.t) channel queue currentTime log :
  mentions channel this = false ->
  Trigger.handlePulse this channel queue currentTime log
  = Trigger.mkOutcome false this queue log.
Proof.
  unfold mentions. rewrite !orb_false_iff. intros [[Ha Hd] Ht].
  destruct this as [i d a de tr w ini st px py]. simpl in Ha, Hd, Ht.
  unfold Trigger.handlePulse. cbn -[Str.includes nonempty].
  rewrite Ha, andb_false_r. cbn -[Str.includes nonempty].
  rewrite Hd, andb_false_r. cbn -[Str.includes nonempty].
  rewrite Ht, andb_false_r. reflexivity.
Qed.

Lemma broadcast_unmentioned channel currentTime ts :
  Forall (fun p => mentions channel (snd p) = false) ts ->
  forall queue log h,
    broadcast channel currentTime ts queue log h = (ts, queue, log, h).
Proof.
  induction 1 as [|[k trigger] ts Hm _ IH]; intros queue log h; simpl.
  - reflexivity.
  - rewrite (handlePulse_unmentioned trigger _ _ _ _ Hm). simpl.
    rewrite IH. reflexivity.
Qed.



(** [run] on an empty queue ends the run. *)
Lemma run_nil (this : t) :
  eventQueue this = [] ->
  run this = set_isSimulating (logEvent LogSimulationEnd this) false.
Proof. intro H. unfold run. rewrite H. reflexivity. Qed.

(** [run] on a queue of one event takes it and sets the timer. *)
Lemma run_single (this : t) (e : Event.t) :
  eventQueue this = [e] ->
  eventQueue (run this) = []
  /\ time (run this) = Event.time e
  /\ isSimulating (run this) = isSimulating this
  /\ timers (run this)
     = timers this ++ [(nextTimeoutId this, Event.channel e)]
  /\ activeTimeouts (run this) = activeTimeouts this ++ [nextTimeoutId this]
  /\ logOutput (run this)
     = LogProcessing (Event.time e) (Event.channel e) :: logOutput this.
Proof. intro H. unfold run. rewrite H. repeat split. Qed.

End DeliverFacts.



Lemma pulseChannel_started
    (JSON_parse : string -> option value) (channel : string) (time : Z)
    (this : Simulator.t) :
  Simulator.reachable JSON_parse this ->
  Simulator.isSimulating this = false ->
  channel <> "" ->
  let started := Simulator.pulseChannel channel time this in
  Simulator.isSimulating started = true
  /\ Simulator.time started = time
  /\ Simulator.eventQueue started = []
  /\ Simulator.timers started = [(Simulator.nextTimeoutId this, channel)]
  /\ Simulator.activeTimeouts started = [Simulator.nextTimeoutId this]
  /\ Simulator.triggers started = Simulator.triggers this
  /\ Simulator.logOutput started
     = LogProcessing time channel :: LogInjecting channel time
       :: Simulator.logOutput this.
Proof.
  intros Hr Hs Hc started. subst started.
  destruct (SimFacts.reachable_tracked JSON_parse this Hr) as (Hm & _ & Hi).
  destruct (Hi Hs) as [Ht He].
  assert (Ha : Simulator.activeTimeouts this = [])
    by (rewrite <- Hm, Ht; reflexivity).
  apply StrFacts.nonempty_true in Hc.
  unfold Simulator.pulseChannel. rewrite Hs, Hc. cbv beta iota zeta.
  simpl negb. cbv iota.
  match goal with
  | |- context [Simulator.run ?s] =>
      destruct (DeliverFacts.run_single s
                  (Event.mk time channel (Some "EXTERNAL")))
        as (R1 & R2 & R3 & R4 & R5 & R6);
      [simpl; rewrite He; reflexivity|];
      rewrite R1, R2, R3, R4, R5, R6, SimFacts.run_triggers
  end.
  simpl. rewrite Ht, Ha. repeat split.
Qed.

(** X8. Started from an idle reachable state, a pulse on a non-empty
    channel leaves the engine running with the clock at the pulse's time
    (also when that is earlier than the clock was), the queue empty and
    exactly one delivery pending, for that channel; the triggers are not
    touched until the delivery. *)
Theorem pulseChannel_starts
    (JSON_parse : string -> option value) (channel : string) (time : Z)
    (this : Simulator.t) :
  Simulator.reachable JSON_parse this ->
  Simulator.isSimulating this = false ->
  channel <> "" ->
  let started := Simulator.pulseChannel channel time this in
  Simulator.isSimulating started = true
  /\ Simulator.time started = time
  /\ Simulator.eventQueue started = []
  /\ Simulator.timers started = [(Simulator.nextTimeoutId this, channel)]
  /\ Simulator.activeTimeouts started = [Simulator.nextTimeoutId this]
  /\ Simulator.triggers started = Simulator.triggers this
  /\ Simulator.logOutput started
     = LogProcessing time channel :: LogInjecting channel time
       :: Simulator.logOutput this.
Proof. apply pulseChannel_started. Qed.

Lemma pulseChannel_starts_witness :
  let this :=
    Example.session
      (Example.pulse_RESET ++ Example.pulse_A_ON ++ Example.pulse_B_ON
       ++ [Simulator.TimerFires 3]) in
  let started := Simulator.pulseChannel "RESET" 0 this in
  Simulator.time this = 2
  /\ Simulator.time started = 0
  /\ Simulator.timers started = [(4%nat, "RESET")].
Proof.
  intros this started.
  destruct (pulseChannel_starts Example.parse "RESET" 0 this
              (session_reachable _))
    as (_ & Ht & _ & Hp & _).
  - lazy. reflexivity.
  - discriminate.
  - split; [lazy; reflexivity|]. split; [exact Ht|].
    subst started. rewrite Hp. lazy. reflexivity.
Defined.

(** X9. A pulse on a channel that no registered trigger names in any of
    its lists: when the delivery comes, no trigger and nothing in the
    queue changes, the log says the pulse was not handled, and the run is
    over. *)
Theorem unmentioned_pulse_ends_run
    (JSON_parse : string -> option value) (channel : string) (time : Z)
    (this : Simulator.t) :
  Simulator.reachable JSON_parse this ->
  Simulator.isSimulating this = false ->
  channel <> "" ->
  Forall (fun p => mentions channel (snd p) = false)
         (Simulator.triggers this) ->
  let started := Simulator.pulseChannel channel time this in
  let after := Simulator.timer_fires (Simulator.nextTimeoutId this) started in
  Simulator.isSimulating after = false
  /\ Simulator.triggers after = Simulator.triggers this
  /\ Simulator.eventQueue after = []
  /\ Simulator.timers after = []
  /\ Simulator.activeTimeouts after = []
  /\ Simulator.time after = time
  /\ Simulator.logOutput after
     = LogSimulationEnd :: LogNotHandled channel
       :: Simulator.logOutput started.
Proof.
  intros Hr Hs Hc Hm started after.
  destruct (pulseChannel_started JSON_parse channel time this Hr Hs Hc)
    as (_ & Et & Eq & Etm & Ea & Etr & _).
  fold started in Et, Eq, Etm, Ea, Etr. clearbody started.
  subst after. unfold Simulator.timer_fires. rewrite Etm. simpl.
  rewrite Nat.eqb_refl. unfold Simulator.deliver. simpl.
  rewrite Eq, Etr, Et.
  rewrite (DeliverFacts.broadcast_unmentioned channel _ _ Hm). simpl.
  unfold Simulator.run. simpl.
  rewrite Etm, Ea, Et. simpl. rewrite Nat.eqb_refl. repeat split.
Qed.

Lemma unmentioned_pulse_ends_run_witness :
  let this := Example.session [] in
  let started := Simulator.pulseChannel "NOBODY" 5 this in
  let after := Simulator.timer_fires (Simulator.nextTimeoutId this) started in
  Simulator.isSimulating after = false
  /\ Simulator.triggers after = Simulator.triggers this.
Proof.
  intros this started after.
  destruct (unmentioned_pulse_ends_run Example.parse "NOBODY" 5 this
              (session_reachable _))
    as (H1 & H2 & _).
  - lazy. reflexivity.
  - discriminate.
  - lazy. repeat constructor.
  - exact (conj H1 H2).
Defined.

(** ** A run in progress always has its next delivery pending *)

Module PendingFacts.
Import Simulator.








End PendingFacts.



(** ** The pulse button *)

Module ButtonFacts.
Import Str.

Lemma all_ws_app (a b : string) :
  all_ws (a ++ b) = all_ws a && all_ws b.
Proof.
  induction a as [|c a IH]; simpl; [reflexivity|].
  rewrite IH. apply andb_assoc.
Qed.

Lemma trim_all_ws (s : string) : all_ws s = true -> trim s = "".
Proof.
  intro H. unfold trim. rewrite (ParseFacts.trimStart_all_ws s H).
  reflexivity.
Qed.

Lemma trim_empty_all_ws (s : string) : trim s = "" -> all_ws s = true.
Proof.
  intro E. destruct (StrFacts.trim_is_trim_of s) as (a & b & Es & Ha & Hb & _).
  rewrite E in Es. simpl in Es. rewrite Es, all_ws_app, Ha, Hb. reflexivity.
Qed.

End ButtonFacts.

(** X11. The pulse button on an idle page: a text of white space only
    (or no text) gets the alert and changes nothing else; any other text
    starts a run at time 0 on the trimmed text. *)
Theorem pulse_channel_button_trims
    (JSON_parse : string -> option value) (input : string)
    (this : Simulator.t) :
  Simulator.reachable JSON_parse this ->
  Simulator.isSimulating this = false ->
  let after := Simulator.pulse_channel_button input this in
  (Str.all_ws input = true ->
   after = Simulator.alert "Channel name cannot be empty." this)
  /\ (Str.all_ws input = false ->
      Simulator.isSimulating after = true
      /\ Simulator.time after = 0
      /\ Simulator.timers after
         = [(Simulator.nextTimeoutId this, Str.trim input)]).
Proof.
  intros Hr Hs after. subst after. unfold Simulator.pulse_channel_button.
  split.
  - intro Hw. rewrite (ButtonFacts.trim_all_ws input Hw).
    unfold Simulator.pulseChannel. rewrite Hs. reflexivity.
  - intro Hw.
    assert (Hne : Str.trim input <> "").
    { intro E. rewrite (ButtonFacts.trim_empty_all_ws input E) in Hw.
      discriminate. }
    destruct (pulseChannel_started JSON_parse (Str.trim input) 0 this Hr Hs Hne)
      as (H1 & H2 & _ & H3 & _).
    exact (conj H1 (conj H2 H3)).
Qed.

Lemma pulse_channel_button_trims_witness :
  let this := Example.session [] in
  Simulator.pulse_channel_button "   " this
  = Simulator.alert "Channel name cannot be empty." this
  /\ Simulator.timers (Simulator.pulse_channel_button " A_ON " this)
     = [(0%nat, "A_ON")].
Proof.
  intro this.
  assert (Hs : Simulator.isSimulating this = false) by (lazy; reflexivity).
  split.
  - exact (proj1 (pulse_channel_button_trims Example.parse "   " this
                    (session_reachable _) Hs) eq_refl).
  - destruct (proj2 (pulse_channel_button_trims Example.parse " A_ON " this
                       (session_reachable _) Hs) eq_refl) as (_ & _ & H).
    rewrite H. lazy. reflexivity.
Defined.

(** ** Manual fire, toggling, editing *)



(** X13. Manual fire is turned down, without any change to the triggers,
    the queue, the clock, the run flag or the timers, while a run is in
    progress, for an id that is not registered, and for a trigger that is
    inactive. *)
Theorem manuallyTrigger_rejected (key : string) (this : Simulator.t) :
  (Simulator.isSimulating this = true
   \/ Obj.own key (Simulator.triggers this) = None
   \/ exists trigger,
        Obj.own key (Simulator.triggers this) = Some trigger
        /\ Trigger.state trigger = false) ->
  let after := Simulator.manuallyTrigger key this in
  Simulator.triggers after = Simulator.triggers this
  /\ Simulator.eventQueue after = Simulator.eventQueue this
  /\ Simulator.time after = Simulator.time this
  /\ Simulator.isSimulating after = Simulator.isSimulating this
  /\ Simulator.timers after = Simulator.timers this
  /\ Simulator.activeTimeouts after = Simulator.activeTimeouts this.
Proof.
  intros H after. subst after. unfold Simulator.manuallyTrigger.
  destruct (Simulator.isSimulating this) eqn:Hs;
    [repeat split; exact Hs|].
  destruct H as [H | [H | (trigger & Ho & Hst)]]; [discriminate H | |].
  - rewrite H. destruct (Obj.inherited key); repeat split; exact Hs.
  - rewrite Ho, Hst. simpl. repeat split; exact Hs.
Qed.

Lemma manuallyTrigger_rejected_witness :
  let this := Example.session [] in
  let after := Simulator.manuallyTrigger "T_CHAIN" this in
  Simulator.isSimulating after = false
  /\ Simulator.timers after = Simulator.timers this.
Proof.
  intros this after. subst after.
  destruct (manuallyTrigger_rejected "T_CHAIN" this)
    as (_ & _ & _ & H1 & H2 & _).
  - right. right. eexists. split; lazy; reflexivity.
  - split; [rewrite H1; lazy; reflexivity | exact H2].
Defined.

(** X14. The toggle button.  While a run is in progress it does
    nothing.  On an idle page it flips the trigger's state and makes the
    new state its [initialState], so a reset afterwards keeps the toggled
    state. *)
Theorem toggleState_rebases
    (key : string) (trigger : Trigger.t) (this : Simulator.t) :
  Obj.own key (Simulator.triggers this) = Some trigger ->
  (Simulator.isSimulating this = true ->
   Simulator.toggleState key this = this)
  /\ (Simulator.isSimulating this = false ->
      exists toggled,
        Obj.own key (Simulator.triggers (Simulator.toggleState key this))
        = Some toggled
        /\ Trigger.state toggled = negb (Trigger.state trigger)
        /\ Trigger.initialState toggled = negb (Trigger.state trigger)
        /\ Obj.own key
             (Simulator.triggers
                (Simulator.resetSimulation (Simulator.toggleState key this)))
           = Some toggled).
Proof.
  intro Ho. unfold Simulator.toggleState. rewrite Ho. split; intros ->.
  - reflexivity.
  - exists (Trigger.toggle trigger).
    assert (Hh : Obj.has_own key (Simulator.triggers this) = true)
      by (unfold Obj.has_own; rewrite Ho; reflexivity).
    repeat split.
    + simpl. apply ObjFacts.own_replace_same, Hh.
    + unfold Simulator.resetSimulation. simpl.
      rewrite SimFacts.clear_timeouts_eq. simpl.
      rewrite ObjFacts.own_map, (ObjFacts.own_replace_same _ _ _ Hh).
      destruct trigger; reflexivity.
Qed.

Lemma toggleState_rebases_witness :
  let this := Example.session [] in
  let after :=
    Simulator.resetSimulation (Simulator.toggleState "T_A_MEM" this) in
  option_map Trigger.state (Obj.own "T_A_MEM" (Simulator.triggers this))
  = Some true
  /\ option_map Trigger.state (Obj.own "T_A_MEM" (Simulator.triggers after))
     = Some false.
Proof.
  intros this after. split; [lazy; reflexivity|].
  destruct (Obj.own "T_A_MEM" (Simulator.triggers this)) as [t|] eqn:E;
    [|lazy in E; discriminate E].
  destruct (toggleState_rebases "T_A_MEM" t this E) as [_ H].
  destruct H as (toggled & _ & Hst & _ & Hr); [lazy; reflexivity|].
  subst after. rewrite Hr. simpl. rewrite Hst.
  lazy in E. injection E as E. rewrite <- E. reflexivity.
Defined.

(** X15. An edit in the panel changes the selected trigger only, and of
    it neither the id nor the state nor the [initialState]; the other
    triggers, the queue, the clock, the run flag and the timers are as
    before, also while a run is in progress.  Without a selection nothing
    changes. *)
Theorem updateTriggerProperty_edits_selected
    (e : edit) (this : Simulator.t) :
  let after := Simulator.updateTriggerProperty e this in
  (Simulator.selectedTrigger this = None -> after = this)
  /\ (forall key trigger,
        Simulator.selectedTrigger this = Some key ->
        Obj.own key (Simulator.triggers this) = Some trigger ->
        exists edited,
          Obj.own key (Simulator.triggers after) = Some edited
          /\ edited = Simulator.apply_edit e trigger
          /\ Trigger.id edited = Trigger.id trigger
          /\ Trigger.state edited = Trigger.state trigger
          /\ Trigger.initialState edited = Trigger.initialState trigger
          /\ (forall k, k <> key ->
                Obj.own k (Simulator.triggers after)
                = Obj.own k (Simulator.triggers this)))
  /\ Simulator.eventQueue after = Simulator.eventQueue this
  /\ Simulator.time after = Simulator.time this
  /\ Simulator.isSimulating after = Simulator.isSimulating this
  /\ Simulator.timers after = Simulator.timers this.
Proof.
  intros after. subst after. unfold Simulator.updateTriggerProperty.
  destruct (Simulator.selectedTrigger this) as [key|] eqn:Es.
  - destruct (Obj.own key (Simulator.triggers this)) as [selected|] eqn:Eo.
    + split; [discriminate|]. split; [|repeat split].
      intros k t Hk Ht. inversion Hk; subst k. rewrite Eo in Ht.
      inversion Ht; subst t.
      exists (Simulator.apply_edit e selected). simpl.
      assert (Hh : Obj.has_own key (Simulator.triggers this) = true)
        by (unfold Obj.has_own; rewrite Eo; reflexivity).
      split; [apply ObjFacts.own_replace_same, Hh|].
      split; [reflexivity|].
      repeat split; try (destruct e; reflexivity).
      intros k Hk'. apply ObjFacts.own_replace_other, Hk'.
    + split; [discriminate|]. split; [|repeat split].
      intros k t Hk Ht. inversion Hk; subst k. congruence.
  - split; [reflexivity|]. split; [|repeat split].
    intros k t Hk. discriminate.
Qed.

Lemma updateTriggerProperty_edits_selected_witness :
  let this :=
    Example.session
      [Simulator.DoPulse "RESET" 0; Simulator.DoSelect (Some "T_CHAIN")] in
  let after :=
    Simulator.updateTriggerProperty (EditTriggerOn " X ,Y,, ") this in
  option_map Trigger.triggerOn
    (Obj.own "T_CHAIN" (Simulator.triggers after)) = Some ["X"; "Y"]
  /\ Simulator.timers after = Simulator.timers this.
Proof.
  intros this after.
  destruct (updateTriggerProperty_edits_selected (EditTriggerOn " X ,Y,, ")
              this) as (_ & H & _ & _ & _ & Ht).
  split; [|exact Ht].
  destruct (Obj.own "T_CHAIN" (Simulator.triggers this)) as [t|] eqn:E;
    [|lazy in E; discriminate E].
  destruct (H "T_CHAIN" t) as (edited & Ho & He & _).
  - lazy. reflexivity.
  - exact E.
  - subst after. rewrite Ho, He. reflexivity.
Defined.

(** ** Saving and loading a layout *)

Module LayoutFacts.
Import Simulator.







End LayoutFacts.






(** ** Only non-empty channels are ever delivered *)

Module ChannelFacts.
Import Simulator.

Lemma nonempty_ext (this after : t) :
  eventQueue after = eventQueue this -> timers after = timers this ->
  channels_nonempty this -> channels_nonempty after.
Proof. unfold channels_nonempty. intros -> ->. exact (fun H => H). Qed.

Lemma Forall_filter {B : Type} (P : B -> Prop) (f : B -> bool) (l : list B) :
  Forall P l -> Forall P (filter f l).
Proof.
  induction 1 as [|x l Hx _ IH]; simpl; [constructor|].
  destruct (f x); [constructor|]; assumption.
Qed.

Lemma run_nonempty (this : t) :
  channels_nonempty this -> channels_nonempty (run this).
Proof.
  unfold channels_nonempty, run. intros [Hq Ht].
  destruct (List.length (eventQueue this) =? 0)%nat; simpl;
    [split; assumption|].
  unfold Queue.pop.
  pose proof (Permutation_Forall (QueueFacts.sort_perm (eventQueue this)) Hq)
    as Hs.
  destruct (Queue.sort (eventQueue this)) as [|ev rest]; simpl;
    [split; assumption|].
  inversion Hs as [|? ? Hev Hrest]; subst. split; [exact Hrest|].
  apply Forall_app. split; [exact Ht|]. repeat constructor. exact Hev.
Qed.

Lemma handlePulse_nonempty (this : Trigger.t) channel queue currentTime log :
  Forall (fun e => nonempty (Event.channel e) = true) queue ->
  Forall (fun e => nonempty (Event.channel e) = true)
    (Trigger.eventQueue'
       (Trigger.handlePulse this channel queue currentTime log)).
Proof.
  intro Hq.
  destruct (PulseFacts.handlePulse_cases this channel queue currentTime log)
    as (_ & _ & Eq).
  rewrite Eq.
  match goal with
  | |- Forall _ (if ?c then _ else _) => destruct c; [|exact Hq]
  end.
  destruct (Trigger.whenTriggered this) as [w|]; [|exact Hq].
  destruct (nonempty w) eqn:En; [|exact Hq].
  apply Forall_app. split; [exact Hq|]. repeat constructor. exact En.
Qed.

Lemma broadcast_nonempty channel currentTime ts :
  forall queue log h,
    Forall (fun e => nonempty (Event.channel e) = true) queue ->
    Forall (fun e => nonempty (Event.channel e) = true)
      (snd (fst (fst (broadcast channel currentTime ts queue log h)))).
Proof.
  induction ts as [|[k trigger] ts IH]; intros queue log h Hq; simpl.
  - exact Hq.
  - pose proof (handlePulse_nonempty trigger channel queue currentTime log Hq)
      as Hq'.
    match goal with
    | |- context [broadcast channel currentTime ts ?q ?l ?b] =>
        specialize (IH q l b Hq');
        destruct (broadcast channel currentTime ts q l b) as [[[ts' q'] l'] h']
    end.
    exact IH.
Qed.

Lemma deliver_nonempty (channel : string) (this : t) :
  channels_nonempty this -> channels_nonempty (deliver channel this).
Proof.
  intros [Hq Ht]. unfold deliver. simpl.
  pose proof (broadcast_nonempty channel (time this) (triggers this)
                (eventQueue this) (logOutput this) false Hq) as Hb.
  revert Hb.
  destruct (broadcast channel (time this) (triggers this) (eventQueue this)
              (logOutput this) false) as [[[ts q] lg] h].
  simpl. intro Hb.
  destruct (negb h); apply run_nonempty; split; assumption.
Qed.

Lemma clear_timeouts_nonempty (this : t) :
  Forall (fun p => nonempty (snd p) = true) (timers this) ->
  Forall (fun p => nonempty (snd p) = true) (timers (clear_timeouts this)).
Proof.
  intro H. rewrite SimFacts.clear_timeouts_eq. simpl.
  apply Forall_filter, H.
Qed.

Ltac same_channels H := apply (nonempty_ext _ _) with (3 := H); reflexivity.

Lemma step_nonempty JSON_parse (a : action) (this : t) :
  channels_nonempty this -> channels_nonempty (step JSON_parse a this).
Proof.
  intro H. destruct a as [config|[key|]| |e|key|key|channel time| | |text|i];
    simpl.
  - destruct (SimFacts.addTrigger_fields config this) as (E1 & _ & _ & E4 & _).
    exact (nonempty_ext _ _ E4 E1 H).
  - destruct (Obj.has_own key (triggers this)); [same_channels H | exact H].
  - same_channels H.
  - destruct (selectedTrigger this) as [key|]; [|exact H].
    unfold deleteTrigger.
    destruct (Obj.own key (triggers this)); [same_channels H | exact H].
  - unfold updateTriggerProperty.
    destruct (selectedTrigger this) as [key|]; [|exact H].
    destruct (Obj.own key (triggers this)); [same_channels H | exact H].
  - unfold toggleState.
    destruct (Obj.own key (triggers this)); [|exact H].
    destruct (isSimulating this); [exact H | same_channels H].
  - unfold manuallyTrigger.
    destruct (isSimulating this); [same_channels H|].
    destruct (Obj.own key (triggers this)) as [trigger|].
    + destruct (negb (Trigger.state trigger)); [same_channels H|].
      apply run_nonempty. destruct H as [Hq Ht].
      destruct (Trigger.whenTriggered trigger) as [w|];
        [destruct (nonempty w) eqn:En|]; split; simpl; auto.
      apply Forall_app. split; [exact Hq|]. repeat constructor. exact En.
    + destruct (Obj.inherited key); [same_channels H | exact H].
  - unfold pulseChannel.
    destruct (isSimulating this); [same_channels H|].
    destruct (nonempty channel) eqn:En; simpl; [|same_channels H].
    apply run_nonempty. destruct H as [Hq Ht]. split; simpl; auto.
    apply Forall_app. split; [exact Hq|]. repeat constructor. exact En.
  - destruct H as [_ Ht]. split.
    + unfold resetSimulation. simpl. constructor.
    + unfold resetSimulation. simpl.
      apply (clear_timeouts_nonempty (set_isSimulating this false)), Ht.
  - same_channels H.
  - unfold loadLayout_onload.
    destruct (JSON_parse text) as [layoutData|]; [|same_channels H].
    destruct (negb (isArray layoutData)); [same_channels H|].
    assert (Hc : channels_nonempty (clear this)).
    { destruct H as [_ Ht]. split.
      - unfold clear. simpl. constructor.
      - unfold clear. simpl.
        apply (clear_timeouts_nonempty (set_isSimulating this false)), Ht. }
    destruct layoutData; try exact Hc.
    destruct (SimFacts.add_all_fields items (clear this))
      as (E1 & _ & _ & E4 & _).
    destruct (add_all items (clear this)) as [[|] after]; simpl in E1, E4.
    + apply (nonempty_ext (clear this)); simpl; assumption.
    + apply (nonempty_ext (clear this)); simpl; assumption.
  - unfold timer_fires.
    destruct (find _ (timers this)) as [[j channel]|]; [|exact H].
    apply deliver_nonempty. destruct H as [Hq Ht]. split; [exact Hq|].
    simpl. apply Forall_filter, Ht.
Qed.

Lemma reachable_nonempty JSON_parse (this : t) :
  reachable JSON_parse this -> channels_nonempty this.
Proof.
  induction 1 as [|a this _ IH].
  - split; constructor.
  - apply step_nonempty, IH.
Qed.

End ChannelFacts.

(** X18. In every reachable state the channel of every queued event and
    of every pending delivery is a non-empty string: empty names are
    stopped at [pulseChannel] and an empty [whenTriggered] schedules
    nothing, so [handlePulse] is never called with an empty channel. *)
Theorem delivered_channels_nonempty
    (JSON_parse : string -> option value) (this : Simulator.t) :
  Simulator.reachable JSON_parse this ->
  (forall e, In e (Simulator.eventQueue this) -> Event.channel e <> "")
  /\ (forall timeoutId channel,
        In (timeoutId, channel) (Simulator.timers this) -> channel <> "").
Proof.
  intro Hr.
  destruct (ChannelFacts.reachable_nonempty JSON_parse this Hr) as [Hq Ht].
  rewrite Forall_forall in Hq, Ht. split.
  - intros e He. apply StrFacts.nonempty_true, Hq, He.
  - intros i c Hc. apply StrFacts.nonempty_true. exact (Ht _ Hc).
Qed.

Lemma delivered_channels_nonempty_witness :
  let this :=
    Example.session
      (Example.pulse_RESET ++ Example.pulse_A_ON ++ Example.pulse_B_ON) in
  Simulator.timers this = [(3%nat, "AND_SUCCESS")]
  /\ (forall timeoutId channel,
        In (timeoutId, channel) (Simulator.timers this) -> channel <> "").
Proof.
  intro this. split; [lazy; reflexivity|].
  exact (proj2 (delivered_channels_nonempty Example.parse this
                  (session_reachable _))).
Defined.


(** ** A run that does not end *)

Module LoopFacts.
Import Simulator.






End LoopFacts.


